(** * node-thread-decorator: the normalizer, the worker handler and the
      dispatcher of [RunInNewThread], embedded and verified.

    Sources embedded here:
    - [thread.ts]: [toFunctionExpression] and the [parentPort] message
      handler;
    - [thread.decorator.ts]: [RunInNewThread], its [cleanup], [resolveOnce],
      [rejectOnce] and the four callbacks (timer, message, error, exit).

    JavaScript strings are sequences of UTF-16 code units, modelled as
    [list N].  Effects (posting a message, arming or clearing the timer,
    terminating the worker, settling the promise, logging) are recorded in
    an explicit trace, in program order. *)

From Stdlib Require Import List NArith ZArith Bool Lia String Ascii.
From Stdlib Require Import DecimalString.
Import ListNotations.

Set Implicit Arguments.

(* ================================================================== *)
(** ** JavaScript strings *)

Module JsStr.

Definition jsstring := list N.

(** A literal: each character of an ASCII literal is one code unit. *)
Definition u (s : string) : jsstring :=
  List.map N_of_ascii (list_ascii_of_string s).

Definition eqb (a b : jsstring) : bool :=
  if list_eq_dec N.eq_dec a b then true else false.

(** ECMAScript WhiteSpace and LineTerminator code units: what
    [String.prototype.trim] strips and what [\s] matches. *)
Definition is_space (c : N) : bool :=
  ((9 <=? c) && (c <=? 13) || (c =? 32) || (c =? 160) || (c =? 5760)
   || (8192 <=? c) && (c <=? 8202) || (c =? 8232) || (c =? 8233)
   || (c =? 8239) || (c =? 8287) || (c =? 12288) || (c =? 65279))%N.

Definition is_lower (c : N) : bool := ((97 <=? c) && (c <=? 122))%N.
Definition is_upper (c : N) : bool := ((65 <=? c) && (c <=? 90))%N.
Definition is_digit (c : N) : bool := ((48 <=? c) && (c <=? 57))%N.

(** [\w] without the unicode and ignore-case flags: [[A-Za-z0-9_]]. *)
Definition is_word (c : N) : bool :=
  is_lower c || is_upper c || is_digit c || (c =? 95)%N.

(** [[a-zA-Z_$]]. *)
Definition is_ident_start (c : N) : bool :=
  is_lower c || is_upper c || (c =? 95)%N || (c =? 36)%N.

Definition LPAREN : N := 40.

Fixpoint drop_while (p : N -> bool) (s : jsstring) : jsstring :=
  match s with
  | [] => []
  | c :: s' => if p c then drop_while p s' else s
  end.

Definition trimStart (s : jsstring) : jsstring := drop_while is_space s.
Definition trimEnd (s : jsstring) : jsstring := rev (drop_while is_space (rev s)).
(** [String.prototype.trim]. *)
Definition trim (s : jsstring) : jsstring := trimEnd (trimStart s).

(** [String.prototype.startsWith] (position 0). *)
Fixpoint startsWith (s p : jsstring) : bool :=
  match p, s with
  | [], _ => true
  | _ :: _, [] => false
  | a :: p', b :: s' => (a =? b)%N && startsWith s' p'
  end.

(** [String.prototype.indexOf] for a single code unit: the first index, or
    [-1]. *)
Fixpoint indexOf (s : jsstring) (c : N) : Z :=
  match s with
  | [] => -1
  | d :: s' =>
      if (d =? c)%N then 0
      else let i := indexOf s' c in if (i <? 0)%Z then -1 else (i + 1)%Z
  end%Z.

(** [String.prototype.slice(start)] with the end omitted: a negative start
    counts from the end, and the start is clamped to the string. *)
Definition slice (s : jsstring) (start : Z) : jsstring :=
  let len := Z.of_nat (List.length s) in
  let from := if (start <? 0)%Z then Z.max (len + start) 0 else Z.min start len in
  skipn (Z.to_nat from) s.

(** [Number::toString] on an integer-valued number, as a template literal
    [`${n}`] prints it: decimal digits with a leading [-] for negatives.
    (JavaScript switches to exponent notation from 1e21 on; timer delays and
    exit codes are far below.) *)
Definition number_to_string (n : Z) : jsstring :=
  u (NilZero.string_of_int (Z.to_int n)).

End JsStr.

Import JsStr.

(* ================================================================== *)
(** ** Regular expressions, as far as the two patterns of [thread.ts] need *)

Module Regex.

Inductive regex :=
| Void                                  (* matches nothing *)
| Eps                                   (* the empty string *)
| Cls (p : N -> bool)                   (* one code unit of a class *)
| Cat (r1 r2 : regex)
| Alt (r1 r2 : regex)
| Star (r : regex).

Definition Chr (c : N) : regex := Cls (N.eqb c).
Definition Opt (r : regex) : regex := Alt r Eps.       (* r? *)
Definition Plus (r : regex) : regex := Cat r (Star r). (* r+ *)

Fixpoint Str (s : jsstring) : regex :=
  match s with
  | [] => Eps
  | c :: s' => Cat (Chr c) (Str s')
  end.

(** The language of a pattern. *)
Inductive matches : regex -> jsstring -> Prop :=
| m_eps : matches Eps []
| m_cls p c : p c = true -> matches (Cls p) [c]
| m_cat r1 r2 s1 s2 : matches r1 s1 -> matches r2 s2 -> matches (Cat r1 r2) (s1 ++ s2)
| m_alt_l r1 r2 s : matches r1 s -> matches (Alt r1 r2) s
| m_alt_r r1 r2 s : matches r2 s -> matches (Alt r1 r2) s
| m_star_nil r : matches (Star r) []
| m_star_cons r c s1 s2 :
    matches r (c :: s1) -> matches (Star r) s2 -> matches (Star r) (c :: s1 ++ s2).

Fixpoint nullable (r : regex) : bool :=
  match r with
  | Void => false
  | Eps => true
  | Cls _ => false
  | Cat r1 r2 => nullable r1 && nullable r2
  | Alt r1 r2 => nullable r1 || nullable r2
  | Star _ => true
  end.

(** Smart constructors keep derivatives small. *)
Definition cat (r1 r2 : regex) : regex :=
  match r1, r2 with
  | Void, _ => Void
  | _, Void => Void
  | Eps, _ => r2
  | _, _ => Cat r1 r2
  end.

Definition alt (r1 r2 : regex) : regex :=
  match r1, r2 with
  | Void, _ => r2
  | _, Void => r1
  | _, _ => Alt r1 r2
  end.

(** Brzozowski derivative. *)
Fixpoint deriv (c : N) (r : regex) : regex :=
  match r with
  | Void => Void
  | Eps => Void
  | Cls p => if p c then Eps else Void
  | Cat r1 r2 =>
      alt (cat (deriv c r1) r2) (if nullable r1 then deriv c r2 else Void)
  | Alt r1 r2 => alt (deriv c r1) (deriv c r2)
  | Star r1 => cat (deriv c r1) (Star r1)
  end.

(** [/^r/.test(s)]: some prefix of [s] is in the language of [r]. *)
Fixpoint test_anchored (r : regex) (s : jsstring) : bool :=
  nullable r ||
  match s with
  | [] => false
  | c :: s' => test_anchored (deriv c r) s'
  end.

End Regex.

Import Regex.

(* ================================================================== *)
(** ** The Callable Normalizer ([thread.ts], [toFunctionExpression]) *)

Module Normalizer.

(** [/^(async\s+)?function[\s(]/] *)
Definition RE_FUNCTION : regex :=
  Cat (Opt (Cat (Str (u "async")) (Plus (Cls is_space))))
      (Cat (Str (u "function"))
           (Cls (fun c => is_space c || (c =? LPAREN)%N))).

(** [/^(\(|[a-zA-Z_$]\w*\s*=>)/] *)
Definition RE_ARROW : regex :=
  Alt (Chr LPAREN)
      (Cat (Cls is_ident_start)
           (Cat (Star (Cls is_word))
                (Cat (Star (Cls is_space)) (Str (u "=>"))))).

Definition toFunctionExpression (code : jsstring) : jsstring :=
  let trimmed := trim code in
  (* Already a valid function expression or arrow function *)
  if test_anchored RE_FUNCTION trimmed || test_anchored RE_ARROW trimmed then code
  else
    (* Class method: "methodName(...) { ... }" or "async methodName(...) { ... }" *)
    let isAsync := startsWith trimmed (u "async ") in
    let paramsStart := indexOf trimmed LPAREN in
    if (paramsStart =? -1)%Z then code
    else
      let fnBody := slice trimmed paramsStart in
      if isAsync then u "async function" ++ fnBody else u "function" ++ fnBody.

End Normalizer.

Import Normalizer.

(* ================================================================== *)
(** ** Shapes of callable text, stated on the text itself *)

Module Shapes.

(** The code units a method name is made of here: anything but white
    space, ( and =. ASCII identifiers, [#private] names, [*generator]
    names and names in other scripts are all of this kind. *)
Definition is_name_char (c : N) : bool :=
  negb (is_space c) && negb (c =? LPAREN)%N && negb (c =? 61)%N.

Definition method_name (s : jsstring) : bool :=
  match s with
  | [] => false
  | _ :: _ => forallb is_name_char s
  end.


Definition all_space (ws : jsstring) : Prop := forallb is_space ws = true.

(** The asynchronous qualifier: the keyword and the white space after it. *)
Definition async_qualifier (q : jsstring) : Prop :=
  exists ws, ws <> [] /\ all_space ws /\ q = u "async" ++ ws.

Definition optional_async (q : jsstring) : Prop := q = [] \/ async_qualifier q.

(** Text that begins with the [function] keyword, optionally qualified,
    followed by white space or the parameter list. *)
Inductive begins_function : jsstring -> Prop :=
| begins_function_intro q c rest :
    optional_async q -> is_space c || (c =? LPAREN)%N = true ->
    begins_function (q ++ u "function" ++ c :: rest).

(** Text that begins with ( or with a single parameter and the arrow,
    where the parameter is a letter, _ or $ followed by word characters. *)
Inductive begins_plain_arrow : jsstring -> Prop :=
| begins_paren rest : begins_plain_arrow (LPAREN :: rest)
| begins_param_arrow c w ws rest :
    is_ident_start c = true -> forallb is_word w = true -> all_space ws ->
    begins_plain_arrow (c :: w ++ ws ++ u "=>" ++ rest).


(** A class-method text: [[async] name(params) { body }], the name not
    being the [function] keyword. *)
Definition method_text (q name ws params sep body : jsstring) : jsstring :=
  q ++ name ++ ws ++ u "(" ++ params ++ u ")" ++ sep ++ u "{" ++ body ++ u "}".

(** A text stops a class where it is empty or starts outside the class. *)
Definition stops (p : N -> bool) (s : jsstring) : Prop :=
  match s with
  | [] => True
  | c :: _ => p c = false
  end.

End Shapes.

Import Shapes.

(* ================================================================== *)
(** ** JavaScript values, errors and completions *)

Module Js.

(** Values that cross the channel (structured-clone data) or serve as a
    [this] binding. Numbers are the integer-valued ones. *)
#[warnings="-register-all"]
Inductive JsValue :=
| JsUndefined
| JsNull
| JsBool (b : bool)
| JsNumber (n : Z)
| JsString (s : jsstring)
| JsArray (items : list JsValue)
| JsObject (props : list (jsstring * JsValue)).

(** An [Error] object: [name], [message], [stack?] and its other own
    properties. *)
Record JsError := mkError {
  name : jsstring;
  message : jsstring;
  stack : option jsstring;
  props : list (jsstring * JsValue)
}.

(** [Object.assign(error, { key: value })] *)
Definition assign (e : JsError) (key : jsstring) (v : JsValue) : JsError :=
  {| name := name e; message := message e; stack := stack e;
     props := props e ++ [(key, v)] |}.

(** How an evaluation ends: it returns, it throws, or it never settles (an
    endless loop, a promise that nobody resolves). What is thrown is an
    [Error], which is what the worker's handler takes it for
    ([const error = e as Error]). *)
Inductive Completion (A : Type) :=
| Normal (a : A)
| Throw (e : JsError)
| Unsettled.

Arguments Normal {A} a.
Arguments Throw {A} e.
Arguments Unsettled {A}.

End Js.

Import Js.

(** The two message shapes of the channel, worker to caller:
    [{ success: v }] and [{ error: { message, stack, name } }]. *)
Module Wire.

Record ErrorInfo := mkErrorInfo {
  message : jsstring;
  stack : option jsstring;
  name : jsstring
}.

(** [{ error?: Error; success?: unknown }]: an absent [success] reads as
    [undefined]. *)
Record Message := mkMessage {
  error : option ErrorInfo;
  success : JsValue
}.

End Wire.

(** A Task, caller to worker: the pair [[fnCode, args]]. *)
Definition Task : Type := jsstring * list JsValue.

(* ================================================================== *)
(** ** The worker side ([thread.ts], the [parentPort] message handler) *)

Module Worker.

(** [{ success: result }] *)
Definition success_message (result : JsValue) : Wire.Message :=
  {| Wire.error := None; Wire.success := result |}.

(** [{ error: { message: error.message, stack: error.stack, name: error.name } }] *)
Definition error_message (error : JsError) : Wire.Message :=
  {| Wire.error := Some {| Wire.message := message error;
                           Wire.stack := stack error;
                           Wire.name := name error |};
     Wire.success := JsUndefined |}.

Section Handler.

(** The host's interpreter is a black box with two entry points. [Env] is
    the ambient state of the worker's own context ([require], globals). *)
Variable Env : Type.
Variable Fn : Type.
(** [new Function('require', body)(require)] *)
Variable newFunction : Env -> jsstring -> Completion Fn.
(** [await fn.apply(thisArg, args)] *)
Variable awaitApply : Env -> Fn -> JsValue -> list JsValue -> Completion JsValue.

Inductive Effect :=
| Evaluated (body : jsstring)
| Applied (fn : Fn) (thisArg : JsValue) (args : list JsValue)
| Posted (m : Wire.Message).

(** The handler's monad: the effects performed so far and how the
    computation ended. *)
Definition M (A : Type) : Type := list Effect * Completion A.

Definition ret {A} (a : A) : M A := ([], Normal a).

Definition bind {A B} (m : M A) (k : A -> M B) : M B :=
  match m with
  | (t, Normal a) => let (t', c) := k a in (t ++ t', c)
  | (t, Throw e) => (t, Throw e)
  | (t, Unsettled) => (t, Unsettled)
  end.

(** [try { body } catch (e) { handler }] *)
Definition try_catch {A} (body : M A) (handler : JsError -> M A) : M A :=
  match body with
  | (t, Throw e) => let (t', c) := handler e in (t ++ t', c)
  | _ => body
  end.

Notation "x <- m ;; k" := (bind m (fun x => k))
  (at level 61, m at next level, right associativity).

Definition do_newFunction (env : Env) (body : jsstring) : M Fn :=
  ([Evaluated body], newFunction env body).

Definition do_awaitApply (env : Env) (fn : Fn) (thisArg : JsValue)
    (args : list JsValue) : M JsValue :=
  ([Applied fn thisArg args], awaitApply env fn thisArg args).

(** [parentPort.postMessage(m)]; the payloads are structured-clone data. *)
Definition postMessage (m : Wire.Message) : M unit := ([Posted m], Normal tt).

(** [parentPort.on('message', async ([fnCode, args]) => { ... })] *)
Definition on_message (env : Env) (task : Task) : M unit :=
  let '(fnCode, args) := task in
  try_catch
    (let executableFn := toFunctionExpression fnCode in
     fn <- do_newFunction env (u "return " ++ executableFn) ;;
     result <- do_awaitApply env fn (JsObject []) args ;;
     postMessage (success_message result))
    (fun e =>
       let error := e in
       postMessage (error_message error)).

Fixpoint posted (t : list Effect) : list Wire.Message :=
  match t with
  | [] => []
  | Posted m :: t' => m :: posted t'
  | _ :: t' => posted t'
  end.


(** The [this] bindings the callable was applied with. *)
Fixpoint this_bindings (t : list Effect) : list JsValue :=
  match t with
  | [] => []
  | Applied _ thisArg _ :: t' => thisArg :: this_bindings t'
  | _ :: t' => this_bindings t'
  end.


(** What the worker sends back for the Tasks of its inbox: the listener is
    registered with [on], so it runs for each of them. *)
Definition outbox (env : Env) (inbox : list Task) : list Wire.Message :=
  flat_map (fun task => posted (fst (on_message env task))) inbox.

End Handler.

End Worker.

(* ================================================================== *)
(** ** The caller side ([thread.decorator.ts], [RunInNewThread]) *)

Module Dispatcher.

(** [propertyKey: string | symbol] *)
Inductive PropertyKey :=
| KeyString (s : jsstring)
| KeySymbol (description : option jsstring).

(** [String(propertyKey)] *)
Definition String_of_key (k : PropertyKey) : jsstring :=
  match k with
  | KeyString s => s
  | KeySymbol None => u "Symbol()"
  | KeySymbol (Some d) => u "Symbol(" ++ d ++ u ")"
  end.

(** What the decorator closes over: its [timeout] argument, the name of the
    target's constructor, the property key and the text of the original
    method ([originalMethod.toString()]). *)
Record Decoration := mkDecoration {
  timeout : option Z;
  className : jsstring;
  propertyKey : PropertyKey;
  originalMethod : jsstring
}.

(** Truthiness of [timeout?: number]: [undefined] and [0] are falsy. *)
Definition truthy_timeout (t : option Z) : bool :=
  match t with
  | None => false
  | Some n => negb (n =? 0)%Z
  end.

(** [`${timeout}`] *)
Definition template_timeout (t : option Z) : jsstring :=
  match t with
  | None => u "undefined"
  | Some n => number_to_string n
  end.

Inductive Effect :=
| NewWorker                          (* new Worker(workerFile, ...) *)
| PostMessage (task : Task)          (* worker.postMessage([fnCode, args]) *)
| SetTimeout (delay : Z)             (* setTimeout(callback, timeout) *)
| ClearTimeout                       (* clearTimeout(timeoutId) *)
| Terminate                          (* worker.terminate() *)
| Resolve (value : JsValue)          (* resolve(value) *)
| Reject (error : JsError)           (* reject(error) *)
| ConsoleError (label text : jsstring). (* console.error(red(label), text) *)

(** The state of one call: the two variables of the closure
    ([timeoutId], [isResolved]), what the host holds for it (whether the
    timer is still scheduled, which [once] listeners are still registered)
    and the effects performed so far. *)
Record Call := mkCall {
  timeoutId : option Z;
  isResolved : bool;
  timerArmed : bool;
  messageListener : bool;
  errorListener : bool;
  exitListener : bool;
  trace : list Effect
}.

Definition emit (e : Effect) (s : Call) : Call :=
  {| timeoutId := timeoutId s; isResolved := isResolved s;
     timerArmed := timerArmed s; messageListener := messageListener s;
     errorListener := errorListener s; exitListener := exitListener s;
     trace := trace s ++ [e] |}.

Definition set_isResolved (b : bool) (s : Call) : Call :=
  {| timeoutId := timeoutId s; isResolved := b;
     timerArmed := timerArmed s; messageListener := messageListener s;
     errorListener := errorListener s; exitListener := exitListener s;
     trace := trace s |}.

(** [clearTimeout(timeoutId); timeoutId = null] *)
Definition clear_timer (s : Call) : Call :=
  {| timeoutId := None; isResolved := isResolved s;
     timerArmed := false; messageListener := messageListener s;
     errorListener := errorListener s; exitListener := exitListener s;
     trace := trace s ++ [ClearTimeout] |}.

Definition cleanup (s : Call) : Call :=
  let s := match timeoutId s with
           | Some _ => clear_timer s
           | None => s
           end in
  emit Terminate s.

Definition resolveOnce (value : JsValue) (s : Call) : Call :=
  if negb (isResolved s) then
    emit (Resolve value) (cleanup (set_isResolved true s))
  else s.

Definition rejectOnce (error : JsError) (s : Call) : Call :=
  if negb (isResolved s) then
    emit (Reject error) (cleanup (set_isResolved true s))
  else s.

Section Callbacks.

(** [new Error(message)] captures a stack trace from the host. *)
Variable captureStack : jsstring -> option jsstring.

Definition new_Error (msg : jsstring) : JsError :=
  {| name := u "Error"; message := msg; stack := captureStack msg; props := [] |}.

Variable d : Decoration.

(** The [setTimeout] callback. *)
Definition on_timeout (s : Call) : Call :=
  let className := className d in
  let methodName := String_of_key (propertyKey d) in
  let error :=
    new_Error (u "Worker execution timed out after "
               ++ template_timeout (timeout d) ++ u " ms") in
  let error := assign error (u "context")
                 (JsString (className ++ u "/" ++ methodName)) in
  rejectOnce error s.

(** [worker.once('message', ...)] *)
Definition on_message (value : Wire.Message) (s : Call) : Call :=
  match Wire.error value with
  | Some e =>
      let error := new_Error (Wire.message e) in
      let error := {| name := Wire.name e; message := message error;
                      stack := Wire.stack e; props := props error |} in
      rejectOnce error s
  | None => resolveOnce (Wire.success value) s
  end.

(** [worker.once('error', ...)] *)
Definition on_error (err : JsError) (s : Call) : Call :=
  if JsStr.eqb (name err) (u "ReferenceError") then
    let s := emit (ConsoleError (u "Worker reference error: ") (message err)) s in
    rejectOnce (new_Error (u "Reference error in worker: " ++ message err)) s
  else rejectOnce err s.

(** [worker.once('exit', ...)] *)
Definition on_exit (code : Z) (s : Call) : Call :=
  if negb (code =? 0)%Z && negb (isResolved s) then
    rejectOnce (new_Error (u "Worker stopped with exit code "
                           ++ number_to_string code)) s
  else s.

(** The body of [new Promise((resolve, reject) => { ... })], up to the
    registration of the listeners. *)
Definition start (args : list JsValue) : Call :=
  let fnCode := originalMethod d in
  let s := {| timeoutId := None; isResolved := false; timerArmed := false;
              messageListener := false; errorListener := false;
              exitListener := false; trace := [NewWorker] |} in
  let s := emit (PostMessage (fnCode, args)) s in
  let s := match timeout d with
           | Some n =>
               if truthy_timeout (timeout d) then
                 {| timeoutId := Some n; isResolved := isResolved s;
                    timerArmed := true; messageListener := messageListener s;
                    errorListener := errorListener s;
                    exitListener := exitListener s;
                    trace := trace s ++ [SetTimeout n] |}
               else s
           | None => s
           end in
  {| timeoutId := timeoutId s; isResolved := isResolved s;
     timerArmed := timerArmed s; messageListener := true;
     errorListener := true; exitListener := true; trace := trace s |}.

(** [descriptor.value = async function (...args) { ... }]: the instance the
    method is called on is its [this], which the body never reads. *)
Definition decorated (this : JsValue) (args : list JsValue) : Call :=
  start args.

(** What the host can deliver to the call. *)
Inductive Event :=
| TimerFired
| MessageReceived (value : Wire.Message)
| ErrorReported (err : JsError)
| Exited (code : Z).

Definition enabled (ev : Event) (s : Call) : bool :=
  match ev with
  | TimerFired => timerArmed s
  | MessageReceived _ => messageListener s
  | ErrorReported _ => errorListener s
  | Exited _ => exitListener s
  end.

(** The host consumes the timer or the [once] listener, then runs the
    callback. An event whose timer or listener is gone is dropped. *)
Definition consume (ev : Event) (s : Call) : Call :=
  {| timeoutId := timeoutId s; isResolved := isResolved s;
     timerArmed := match ev with TimerFired => false | _ => timerArmed s end;
     messageListener :=
       match ev with MessageReceived _ => false | _ => messageListener s end;
     errorListener :=
       match ev with ErrorReported _ => false | _ => errorListener s end;
     exitListener := match ev with Exited _ => false | _ => exitListener s end;
     trace := trace s |}.

Definition callback (ev : Event) : Call -> Call :=
  match ev with
  | TimerFired => on_timeout
  | MessageReceived value => on_message value
  | ErrorReported err => on_error err
  | Exited code => on_exit code
  end.

Definition deliver (s : Call) (ev : Event) : Call :=
  if enabled ev s then callback ev (consume ev s) else s.

Definition run (evs : list Event) (s : Call) : Call := fold_left deliver evs s.

End Callbacks.

(** The promise as the caller sees it: the first [resolve] or [reject]
    decides, later ones are ignored by the promise itself. *)
Inductive PromiseState :=
| Pending
| Fulfilled (value : JsValue)
| Rejected (error : JsError).

Fixpoint promise (t : list Effect) : PromiseState :=
  match t with
  | [] => Pending
  | Resolve v :: _ => Fulfilled v
  | Reject e :: _ => Rejected e
  | _ :: t' => promise t'
  end.

Definition is_settle (e : Effect) : bool :=
  match e with
  | Resolve _ | Reject _ => true
  | _ => false
  end.

Definition is_terminate (e : Effect) : bool :=
  match e with Terminate => true | _ => false end.

Definition is_clear (e : Effect) : bool :=
  match e with ClearTimeout => true | _ => false end.

Definition is_set_timeout (e : Effect) : bool :=
  match e with SetTimeout _ => true | _ => false end.

Definition is_new_worker (e : Effect) : bool :=
  match e with NewWorker => true | _ => false end.

Definition count (p : Effect -> bool) (t : list Effect) : nat :=
  List.length (filter p t).

Fixpoint tasks_sent (t : list Effect) : list Task :=
  match t with
  | [] => []
  | PostMessage task :: t' => task :: tasks_sent t'
  | _ :: t' => tasks_sent t'
  end.

(** What a settlement adds to the trace: the timer is cleared where one was
    set, the worker is terminated, the promise is settled. *)
Definition settling_effects (d : Decoration) (e : Effect) : list Effect :=
  (if truthy_timeout (timeout d) then [ClearTimeout] else []) ++ [Terminate; e].

(** The state a settlement leaves: what [resolveOnce] and [rejectOnce] do
    when the latch is open. *)
Definition settle (e : Effect) (s : Call) : Call :=
  emit e (cleanup (set_isResolved true s)).

(** The state of a call that has not settled, as far as settling reads it. *)
Record pending (d : Decoration) (args : list JsValue) (s : Call) : Prop := {
  p_latch : isResolved s = false;
  p_settle : count is_settle (trace s) = 0;
  p_terminate : count is_terminate (trace s) = 0;
  p_clear : count is_clear (trace s) = 0;
  p_set : count is_set_timeout (trace s) = Nat.b2n (truthy_timeout (timeout d));
  p_sent : tasks_sent (trace s) = [(originalMethod d, args)];
  p_worker : count is_new_worker (trace s) = 1;
  p_timer : timeoutId s = if truthy_timeout (timeout d) then timeout d else None;
  p_armed : timerArmed s = true -> truthy_timeout (timeout d) = true
}.

(** The invariant of a call: the latch, the two variables of the closure,
    the host's timer and listeners, and the effects agree. *)
Record consistent (d : Decoration) (args : list JsValue) (s : Call) : Prop := {
  c_settle : count is_settle (trace s) = Nat.b2n (isResolved s);
  c_terminate : count is_terminate (trace s) = Nat.b2n (isResolved s);
  c_clear : count is_clear (trace s)
            = Nat.b2n (isResolved s && truthy_timeout (timeout d));
  c_set : count is_set_timeout (trace s) = Nat.b2n (truthy_timeout (timeout d));
  c_sent : tasks_sent (trace s) = [(originalMethod d, args)];
  c_worker : count is_new_worker (trace s) = 1;
  c_timer : timeoutId s = if isResolved s then None
                          else if truthy_timeout (timeout d) then timeout d
                          else None;
  c_armed : timerArmed s = negb (isResolved s) && truthy_timeout (timeout d);
  c_message_listener : isResolved s = false -> messageListener s = true;
  c_error_listener : isResolved s = false -> errorListener s = true
}.

End Dispatcher.

Import Dispatcher.

(* ================================================================== *)
(** ** A whole call: the caller side and the worker side together *)

Module System.

Section Call.

Variable Env : Type.
Variable Fn : Type.
Variable newFunction : Env -> jsstring -> Completion Fn.
Variable awaitApply : Env -> Fn -> JsValue -> list JsValue -> Completion JsValue.
Variable captureStack : jsstring -> option jsstring.

(** The call as far as the worker's answer: the wrapper starts the call, the
    worker handles what was posted to it, and its messages arrive. *)
Definition answered (d : Decoration) (env : Env) (this : JsValue)
    (args : list JsValue) : Call :=
  let s := decorated d this args in
  let answers := Worker.outbox newFunction awaitApply env (tasks_sent (trace s)) in
  run captureStack d (List.map MessageReceived answers) s.

End Call.

End System.

(** Concrete inputs for the examples. *)
Module Examples.

Definition no_stack (msg : jsstring) : option jsstring := None.

(** [class Calculator { @RunInNewThread(100) async slow(ms) { ... } }] *)
Definition slow : Decoration :=
  {| timeout := Some 100%Z;
     className := u "Calculator";
     propertyKey := KeyString (u "slow");
     originalMethod := u "async slow(ms) { await delay(ms); return ms }" |}.

(** [class Calculator { @RunInNewThread() async add(a, b) { ... } }] *)
Definition add : Decoration :=
  {| timeout := None;
     className := u "Calculator";
     propertyKey := KeyString (u "add");
     originalMethod := u "async add(a, b) { return a + b }" |}.

Definition success_of (v : JsValue) : Wire.Message :=
  {| Wire.error := None; Wire.success := v |}.

Definition failure_of (name message : jsstring) : Wire.Message :=
  {| Wire.error := Some {| Wire.message := message; Wire.stack := None;
                           Wire.name := name |};
     Wire.success := JsUndefined |}.

(** An interpreter in which no callable ever settles, as for
    [async wait() { await new Promise(() => {}) }]. *)
Definition parse_only (_ : unit) (body : jsstring) : Completion jsstring :=
  Normal body.
Definition never_settles (_ : unit) (_ : jsstring) (_ : JsValue)
    (_ : list JsValue) : Completion JsValue := Unsettled.

(** An interpreter that knows one callable: the sum of two numbers. *)
Definition sums (_ : unit) (_ : jsstring) (_ : JsValue)
    (args : list JsValue) : Completion JsValue :=
  match args with
  | [JsNumber a; JsNumber b] => Normal (JsNumber (a + b))
  | _ => Throw {| name := u "TypeError"; message := u "not a number";
                  stack := None; props := [] |}
  end.

End Examples.

(* ================================================================== *)
(** ** The race of the events, read off the callbacks *)

Module Race.

Section Outcomes.

Variable captureStack : jsstring -> option jsstring.
Variable d : Decoration.

(** The error the timer callback builds. *)
Definition timeout_error : JsError :=
  assign (new_Error captureStack
            (u "Worker execution timed out after "
             ++ template_timeout (timeout d) ++ u " ms"))
         (u "context")
         (JsString (className d ++ u "/" ++ String_of_key (propertyKey d))).

(** The error the exit listener builds. *)
Definition exit_error (code : Z) : JsError :=
  new_Error captureStack (u "Worker stopped with exit code " ++ number_to_string code).

(** The error the error listener rejects with. *)
Definition reported_error (err : JsError) : JsError :=
  if JsStr.eqb (name err) (u "ReferenceError") then
    new_Error captureStack (u "Reference error in worker: " ++ message err)
  else err.

(** What the message listener settles the promise to. *)
Definition received (value : Wire.Message) : PromiseState :=
  match Wire.error value with
  | Some e => Rejected {| name := Wire.name e; message := Wire.message e;
                          stack := Wire.stack e; props := [] |}
  | None => Fulfilled (Wire.success value)
  end.

(** The first event, in arrival order, that can settle decides: a timer
    event counts only if a timer was set, an exit event only while the exit
    listener is registered, and an exit with code 0 spends that listener
    without settling. *)
Fixpoint first_settlement (exit_listening : bool) (evs : list Event)
    : PromiseState :=
  match evs with
  | [] => Pending
  | TimerFired :: rest =>
      if truthy_timeout (timeout d) then Rejected timeout_error
      else first_settlement exit_listening rest
  | MessageReceived value :: _ => received value
  | ErrorReported err :: _ => Rejected (reported_error err)
  | Exited code :: rest =>
      if exit_listening then
        if (code =? 0)%Z then first_settlement false rest
        else Rejected (exit_error code)
      else first_settlement exit_listening rest
  end.

End Outcomes.

Definition is_log (e : Effect) : bool :=
  match e with ConsoleError _ _ => true | _ => false end.

Definition is_exit (ev : Event) : bool :=
  match ev with Exited _ => true | _ => false end.

End Race.

(* ================================================================== *)
(** ** The worker file ([thread.decorator.ts], [workerFile] and [execArgv]) *)

Module Loader.




End Loader.

(* ================================================================== *)
(** ** The earlier decorator (the second [RunInNewThread] of the sources) *)

Module Legacy.

(** JavaScript truthiness of a value. *)
Definition truthy (v : JsValue) : bool :=
  match v with
  | JsUndefined | JsNull => false
  | JsBool b => b
  | JsNumber n => negb (n =? 0)%Z
  | JsString s => match s with [] => false | _ :: _ => true end
  | JsArray _ | JsObject _ => true
  end.

(** What this decorator closes over; the key is a string here. *)
Record Decoration := mkDecoration {
  timeout : option Z;
  className : jsstring;
  key : jsstring;
  originalMethod : jsstring
}.

Inductive Logged :=
| LoggedError (e : JsError)
| LoggedText (s : jsstring).

Inductive Effect :=
| NewWorker (file : jsstring)        (* new Worker(`${__dirname}/thread.js`) *)
| PostMessage (task : Task)          (* worker.postMessage([fnCode, args]) *)
| SetTimeout (delay : Z)             (* setTimeout(callback, timeout) *)
| ClearTimeout                       (* clearTimeout(timeoutId) *)
| Terminate                          (* worker.terminate() *)
| ConsoleError (items : list Logged) (* console.error(...) *)
| PromiseReject (e : Wire.ErrorInfo) (* Promise.reject(value.error) *)
| PromiseResolve (v : JsValue).      (* Promise.resolve(value.success) *)

(** The variable of the closure, the host's timer and the effects so far.
    The listeners are registered with [on] and stay. *)
Record Call := mkCall {
  timeoutId : option Z;
  timerArmed : bool;
  trace : list Effect
}.

Definition emit (e : Effect) (s : Call) : Call :=
  {| timeoutId := timeoutId s; timerArmed := timerArmed s;
     trace := trace s ++ [e] |}.

(** [if (timeoutId) clearTimeout(timeoutId)]: the variable keeps its value. *)
Definition clear_if_set (s : Call) : Call :=
  match timeoutId s with
  | Some _ => {| timeoutId := timeoutId s; timerArmed := false;
                 trace := trace s ++ [ClearTimeout] |}
  | None => s
  end.

Section Callbacks.

Variable captureStack : jsstring -> option jsstring.
Variable dirname : jsstring.
Variable d : Decoration.

(** The [setTimeout] callback. *)
Definition on_timeout (s : Call) : Call :=
  let className := className d in
  let methodName := key d in
  let error := new_Error captureStack (u "worker execution timed out.") in
  let error := assign error (u "context")
                 (JsString (className ++ u "/" ++ methodName)) in
  let s := emit (ConsoleError [LoggedError error]) s in
  emit Terminate s.

(** [worker.on('message', ...)] *)
Definition on_message (value : Wire.Message) (s : Call) : Call :=
  let s := clear_if_set s in
  match Wire.error value with
  | Some e => emit (PromiseReject e) s
  | None =>
      if truthy (Wire.success value) then emit (PromiseResolve (Wire.success value)) s
      else s
  end.

(** [worker.on('error', ...)] *)
Definition on_error (err : JsError) (s : Call) : Call :=
  let s := clear_if_set s in
  if JsStr.eqb (name err) (u "ReferenceError") then
    emit (ConsoleError [LoggedText (u "worker error "); LoggedError err]) s
  else
    emit (ConsoleError [LoggedText (u "worker error "); LoggedText (message err)]) s.

(** [worker.on('exit', ...)] *)
Definition on_exit (code : Z) (s : Call) : Call :=
  let s := clear_if_set s in
  if negb (code =? 0)%Z then
    emit (ConsoleError
            [LoggedText (u "worker stopped with exit code " ++ number_to_string code)]) s
  else s.

(** The body of the wrapper. *)
Definition start (args : list JsValue) : Call :=
  let fnCode := originalMethod d in
  let s := {| timeoutId := None; timerArmed := false;
              trace := [NewWorker (dirname ++ u "/thread.js")] |} in
  let s := emit (PostMessage (fnCode, args)) s in
  match timeout d with
  | Some n =>
      if truthy_timeout (timeout d) then
        {| timeoutId := Some n; timerArmed := true;
           trace := trace s ++ [SetTimeout n] |}
      else s
  | None => s
  end.

(** [descriptor.value = function (...args) { ... }]: the wrapper has no
    [return], so its caller gets [undefined]. *)
Definition decorated (this : JsValue) (args : list JsValue) : Call * JsValue :=
  (start args, JsUndefined).

Definition deliver (s : Call) (ev : Event) : Call :=
  match ev with
  | TimerFired =>
      if timerArmed s then
        on_timeout {| timeoutId := timeoutId s; timerArmed := false;
                      trace := trace s |}
      else s
  | MessageReceived value => on_message value s
  | ErrorReported err => on_error err s
  | Exited code => on_exit code s
  end.

Definition run (evs : list Event) (s : Call) : Call := fold_left deliver evs s.

End Callbacks.

Definition count (p : Effect -> bool) (t : list Effect) : nat :=
  List.length (filter p t).

Definition is_terminate (e : Effect) : bool :=
  match e with Terminate => true | _ => false end.

Definition is_clear (e : Effect) : bool :=
  match e with ClearTimeout => true | _ => false end.

Definition is_promise (e : Effect) : bool :=
  match e with PromiseReject _ | PromiseResolve _ => true | _ => false end.

Definition is_timer (ev : Event) : bool :=
  match ev with TimerFired => true | _ => false end.

(** A message for which the listener returns a promise. *)
Definition carries (ev : Event) : bool :=
  match ev with
  | MessageReceived value =>
      match Wire.error value with
      | Some _ => true
      | None => truthy (Wire.success value)
      end
  | _ => false
  end.

End Legacy.

(* ================================================================== *)
(** * Regular expressions: the matcher decides the language *)

Section RegexFacts.

Lemma matches_void_inv s : ~ matches Void s.
Proof. intros H; inversion H. Qed.

Lemma matches_eps_iff s : matches Eps s <-> s = [].
Proof. split; [intros H; now inversion H | intros ->; constructor]. Qed.

Lemma matches_cls_iff p s : matches (Cls p) s <-> exists c, s = [c] /\ p c = true.
Proof.
  split.
  - intros H; inversion H; subst; eauto.
  - intros (c & -> & Hc); now constructor.
Qed.

Lemma matches_cat_iff r1 r2 s :
  matches (Cat r1 r2) s <->
  exists s1 s2, s = s1 ++ s2 /\ matches r1 s1 /\ matches r2 s2.
Proof.
  split.
  - intros H; inversion H; subst; eauto.
  - intros (s1 & s2 & -> & H1 & H2); now constructor.
Qed.

Lemma matches_alt_iff r1 r2 s :
  matches (Alt r1 r2) s <-> matches r1 s \/ matches r2 s.
Proof.
  split.
  - intros H; inversion H; subst; auto.
  - intros [H | H]; [now apply m_alt_l | now apply m_alt_r].
Qed.

Lemma matches_star_cons_inv r c s :
  matches (Star r) (c :: s) ->
  exists s1 s2, s = s1 ++ s2 /\ matches r (c :: s1) /\ matches (Star r) s2.
Proof. intros H; inversion H; subst; eauto. Qed.

Lemma nullable_spec r : nullable r = true <-> matches r [].
Proof.
  induction r; simpl.
  - split; [discriminate | intros H; inversion H].
  - split; [constructor | reflexivity].
  - split; [discriminate | intros H; inversion H].
  - rewrite andb_true_iff, IHr1, IHr2, matches_cat_iff. split.
    + intros [H1 H2]. exists [], []. auto.
    + intros (s1 & s2 & E & H1 & H2). symmetry in E.
      apply app_eq_nil in E as [-> ->]. auto.
  - now rewrite orb_true_iff, IHr1, IHr2, matches_alt_iff.
  - split; [constructor | reflexivity].
Qed.

Lemma cat_spec r1 r2 s : matches (cat r1 r2) s <-> matches (Cat r1 r2) s.
Proof.
  rewrite matches_cat_iff.
  assert (V1 : forall r, ~ exists s1 s2 : jsstring,
               s = s1 ++ s2 /\ matches Void s1 /\ matches r s2)
    by (intros r (? & ? & _ & H & _); inversion H).
  assert (V2 : forall r, ~ exists s1 s2 : jsstring,
               s = s1 ++ s2 /\ matches r s1 /\ matches Void s2)
    by (intros r (? & ? & _ & _ & H); inversion H).
  assert (E : matches r2 s <->
              exists s1 s2, s = s1 ++ s2 /\ matches Eps s1 /\ matches r2 s2).
  { split.
    - intros H. exists [], s. repeat split; [constructor | assumption].
    - intros (s1 & s2 & -> & H1 & H2). apply matches_eps_iff in H1. now subst. }
  destruct r1, r2; simpl; try (rewrite <- matches_cat_iff; reflexivity);
    try (split; [intros H; now inversion H | intros H; now (apply V1 in H || apply V2 in H)]);
    try exact E.
Qed.

Lemma alt_spec r1 r2 s : matches (alt r1 r2) s <-> matches (Alt r1 r2) s.
Proof.
  rewrite matches_alt_iff.
  destruct r1, r2; simpl; try (rewrite matches_alt_iff; reflexivity);
    (split; [intros H; auto | intros [H | H]; auto; now inversion H]).
Qed.

Lemma deriv_spec r : forall c s, matches (deriv c r) s <-> matches r (c :: s).
Proof.
  induction r; intros c s; simpl.
  - split; intros H; inversion H.
  - split; intros H; inversion H.
  - destruct (p c) eqn:Hp.
    + rewrite matches_eps_iff, matches_cls_iff. split.
      * intros ->. eauto.
      * intros (c' & E & _). now inversion E.
    + split; [intros H; inversion H |].
      rewrite matches_cls_iff. intros (c' & E & Hc). inversion E; subst. congruence.
  - rewrite alt_spec, matches_alt_iff, cat_spec, !matches_cat_iff. split.
    + intros [(s1 & s2 & -> & H1 & H2) | H].
      * exists (c :: s1), s2. rewrite <- IHr1. auto.
      * destruct (nullable r1) eqn:Hn; [| inversion H].
        exists [], (c :: s). rewrite <- IHr2, <- nullable_spec. auto.
    + intros (s1 & s2 & E & H1 & H2). destruct s1 as [| c' s1].
      * right. simpl in E. subst s2.
        apply nullable_spec in H1. rewrite H1. now apply IHr2.
      * left. inversion E; subst. exists s1, s2. rewrite IHr1. auto.
  - now rewrite alt_spec, !matches_alt_iff, IHr1, IHr2.
  - rewrite cat_spec, matches_cat_iff. split.
    + intros (s1 & s2 & -> & H1 & H2). apply IHr in H1. now constructor.
    + intros H. apply matches_star_cons_inv in H as (s1 & s2 & -> & H1 & H2).
      exists s1, s2. rewrite IHr. auto.
Qed.

(** The anchored test answers whether some prefix of the text is in the
    language of the pattern. *)
Lemma test_anchored_spec s : forall r,
  test_anchored r s = true <-> exists p q, s = p ++ q /\ matches r p.
Proof.
  induction s as [| c s IH]; intros r; simpl.
  - rewrite orb_false_r, nullable_spec. split.
    + intros H. exists [], []. auto.
    + intros (p & q & E & H). symmetry in E. apply app_eq_nil in E as [-> _]. auto.
  - rewrite orb_true_iff, nullable_spec, IH. split.
    + intros [H | (p & q & -> & H)].
      * exists [], (c :: s). auto.
      * exists (c :: p), q. rewrite <- deriv_spec. auto.
    + intros (p & q & E & H). destruct p as [| c' p].
      * now left.
      * right. inversion E; subst. exists p, q. rewrite deriv_spec. auto.
Qed.

Lemma matches_str_iff t s : matches (Str t) s <-> s = t.
Proof.
  revert s. induction t as [| c t IH]; intros s; simpl.
  - apply matches_eps_iff.
  - unfold Chr. rewrite matches_cat_iff. split.
    + intros (s1 & s2 & -> & H1 & H2).
      apply matches_cls_iff in H1 as (c' & -> & Hc).
      apply N.eqb_eq in Hc. apply IH in H2. now subst.
    + intros ->. exists [c], t. repeat split.
      * constructor. apply N.eqb_refl.
      * now apply IH.
Qed.

Lemma matches_star_cls_iff p s :
  matches (Star (Cls p)) s <-> forallb p s = true.
Proof.
  induction s as [| c s IH]; simpl.
  - split; [reflexivity | constructor].
  - rewrite andb_true_iff, <- IH. split.
    + intros H. apply matches_star_cons_inv in H as (s1 & s2 & -> & H1 & H2).
      apply matches_cls_iff in H1 as (c' & E & Hc). inversion E; subst. auto.
    + intros [Hc H]. change (c :: s) with (c :: [] ++ s).
      constructor; [now constructor | assumption].
Qed.

End RegexFacts.

(* ================================================================== *)
(** * Facts on strings *)

Section StringFacts.

Lemma eqb_eq a b : JsStr.eqb a b = true <-> a = b.
Proof.
  unfold JsStr.eqb; destruct (list_eq_dec N.eq_dec a b); split; congruence.
Qed.

Lemma drop_while_stops p s : stops p (drop_while p s).
Proof.
  induction s as [| c s IH]; simpl; [exact I |].
  destruct (p c) eqn:E; [exact IH | exact E].
Qed.

Lemma drop_while_fixed p s : stops p s -> drop_while p s = s.
Proof. destruct s as [| c s]; simpl; [reflexivity | now intros ->]. Qed.

Lemma trim_fixed s : stops is_space s -> stops is_space (rev s) -> trim s = s.
Proof.
  intros H1 H2. unfold trim, trimEnd, trimStart.
  rewrite (drop_while_fixed _ _ H1), (drop_while_fixed _ _ H2).
  apply rev_involutive.
Qed.

Lemma trim_stops_end s : stops is_space (rev (trim s)).
Proof.
  unfold trim, trimEnd. rewrite rev_involutive. apply drop_while_stops.
Qed.

Lemma drop_while_suffix p s : exists a, s = a ++ drop_while p s.
Proof.
  induction s as [| c s (a & IH)]; simpl.
  - now exists [].
  - destruct (p c).
    + exists (c :: a). simpl. now f_equal.
    + now exists [].
Qed.

Lemma trim_infix s : exists a b, s = a ++ trim s ++ b.
Proof.
  unfold trim, trimEnd, trimStart.
  destruct (drop_while_suffix is_space s) as (a & Ha).
  destruct (drop_while_suffix is_space (rev (drop_while is_space s))) as (b & Hb).
  exists a, (rev b).
  rewrite <- rev_app_distr, <- Hb, rev_involutive. exact Ha.
Qed.

(** Two ways of cutting a text after a run of one class agree. *)
Lemma span_unique p a : forall b x y,
  forallb p a = true -> forallb p b = true -> stops p x -> stops p y ->
  a ++ x = b ++ y -> a = b /\ x = y.
Proof.
  induction a as [| c a IH]; intros [| c' b] x y Ha Hb Hx Hy E; simpl in *.
  - auto.
  - subst x. simpl in Hx. apply andb_true_iff in Hb as [Hb _]. congruence.
  - subst y. simpl in Hy. apply andb_true_iff in Ha as [Ha _]. congruence.
  - inversion E; subst.
    apply andb_true_iff in Ha as [_ Ha]. apply andb_true_iff in Hb as [_ Hb].
    destruct (IH b x y Ha Hb Hx Hy H1) as [-> ->]. auto.
Qed.

Lemma indexOf_range s c : (-1 <= indexOf s c)%Z.
Proof.
  induction s as [| d s IH]; simpl; [lia |].
  destruct (d =? c)%N; [lia |]. destruct (indexOf s c <? 0)%Z eqn:E; lia.
Qed.

Lemma indexOf_absent s c : indexOf s c = (-1)%Z <-> ~ In c s.
Proof.
  induction s as [| d s IH]; simpl.
  - tauto.
  - destruct (d =? c)%N eqn:E.
    + apply N.eqb_eq in E. split; [lia | intros H; exfalso; auto].
    + apply N.eqb_neq in E. pose proof (indexOf_range s c).
      destruct (indexOf s c <? 0)%Z eqn:L.
      * apply Z.ltb_lt in L. split; [| reflexivity].
        intros _ [H1 | H1]; [congruence |]. apply IH in H1; [auto | lia].
      * apply Z.ltb_ge in L. split; [lia |].
        intros H1. exfalso. assert (indexOf s c = (-1)%Z) by (apply IH; tauto). lia.
Qed.

(** [indexOf] finds the first occurrence. *)
Lemma indexOf_first a c r :
  ~ In c a -> indexOf (a ++ c :: r) c = Z.of_nat (List.length a).
Proof.
  induction a as [| d a IH]; simpl; intros H.
  - now rewrite N.eqb_refl.
  - destruct (d =? c)%N eqn:E.
    + apply N.eqb_eq in E. exfalso; auto.
    + rewrite IH by tauto.
      destruct (Z.of_nat (List.length a) <? 0)%Z eqn:L; [apply Z.ltb_lt in L |]; lia.
Qed.

Lemma indexOf_found s c :
  indexOf s c <> (-1)%Z ->
  exists a r, s = a ++ c :: r /\ ~ In c a /\ indexOf s c = Z.of_nat (List.length a).
Proof.
  induction s as [| d s IH]; simpl; [congruence |].
  destruct (d =? c)%N eqn:E.
  - apply N.eqb_eq in E. subst d. intros _. exists [], s. simpl. auto.
  - apply N.eqb_neq in E. destruct (indexOf s c <? 0)%Z eqn:L; [congruence |].
    apply Z.ltb_ge in L. intros _.
    destruct IH as (a & r & -> & Ha & Hi); [lia |].
    exists (d :: a), r. simpl. repeat split.
    + intros [H | H]; auto.
    + rewrite Hi. lia.
Qed.

Lemma slice_at_length a x : slice (a ++ x) (Z.of_nat (List.length a)) = x.
Proof.
  unfold slice. rewrite length_app.
  destruct (Z.of_nat (List.length a) <? 0)%Z eqn:L; [apply Z.ltb_lt in L; lia |].
  rewrite Z.min_l by lia. rewrite Nat2Z.id.
  rewrite skipn_app, skipn_all, Nat.sub_diag. reflexivity.
Qed.

End StringFacts.

(* ================================================================== *)
(** * The two patterns of the normalizer recognise exactly their shapes *)

Section Recognisers.

Lemma space_not_name c : is_space c = true -> is_name_char c = false.
Proof. unfold is_name_char. intros ->. reflexivity. Qed.

Lemma name_not_space c : is_name_char c = true -> is_space c = false.
Proof.
  intros H. apply not_true_iff_false. intros H'.
  apply space_not_name in H'. congruence.
Qed.

Lemma name_char_iff c :
  is_name_char c = true <->
  is_space c = false /\ c <> LPAREN /\ c <> 61%N.
Proof.
  unfold is_name_char.
  rewrite !andb_true_iff, !negb_true_iff, !N.eqb_neq. tauto.
Qed.

Lemma word_not_space c : is_word c = true -> is_space c = false.
Proof.
  intros H. apply not_true_iff_false. intros H'.
  unfold is_word, is_lower, is_upper, is_digit, is_space in *.
  rewrite ?orb_true_iff, ?andb_true_iff, ?N.leb_le, ?N.eqb_eq in *. lia.
Qed.

Lemma word_name c : is_word c = true -> is_name_char c = true.
Proof.
  intros H. apply name_char_iff. split; [now apply word_not_space |].
  unfold is_word, is_lower, is_upper, is_digit, LPAREN in *.
  rewrite ?orb_true_iff, ?andb_true_iff, ?N.leb_le, ?N.eqb_eq in *. lia.
Qed.

Lemma start_name c : is_ident_start c = true -> is_name_char c = true.
Proof.
  intros H. apply name_char_iff. split.
  - apply not_true_iff_false. intros H'.
    unfold is_ident_start, is_lower, is_upper, is_space in *.
    rewrite ?orb_true_iff, ?andb_true_iff, ?N.leb_le, ?N.eqb_eq in *. lia.
  - unfold is_ident_start, is_lower, is_upper, LPAREN in *.
    rewrite ?orb_true_iff, ?andb_true_iff, ?N.leb_le, ?N.eqb_eq in *. lia.
Qed.

Lemma delimiter_not_name c :
  is_space c || (c =? LPAREN)%N = true -> is_name_char c = false.
Proof.
  intros H. apply orb_true_iff in H as [H | H].
  - now apply space_not_name.
  - apply N.eqb_eq in H. now subst.
Qed.

Lemma forallb_impl (p q : N -> bool) s :
  (forall c, p c = true -> q c = true) -> forallb p s = true -> forallb q s = true.
Proof.
  intros Hpq. rewrite !forallb_forall. auto.
Qed.

Lemma method_name_inv x :
  method_name x = true ->
  exists c x', x = c :: x' /\ is_name_char c = true /\
               forallb is_name_char x = true.
Proof.
  destruct x as [| c x']; [discriminate |].
  unfold method_name. intros H. exists c, x'. repeat split; auto.
  simpl in H. now apply andb_true_iff in H.
Qed.

Lemma method_name_no_paren x : method_name x = true -> ~ In LPAREN x.
Proof.
  intros H Hin. apply method_name_inv in H as (_ & _ & _ & _ & H).
  rewrite forallb_forall in H. now apply H in Hin.
Qed.

Lemma all_space_no_paren ws : all_space ws -> ~ In LPAREN ws.
Proof.
  unfold all_space. rewrite forallb_forall. intros H Hin. now apply H in Hin.
Qed.

Lemma optional_async_no_paren q : optional_async q -> ~ In LPAREN q.
Proof.
  intros [-> | (ws & _ & Hws & ->)]; [auto |].
  rewrite in_app_iff. intros [H | H].
  - vm_compute in H. intuition discriminate.
  - now apply all_space_no_paren in H.
Qed.

(** White space, then something that is neither white space nor [p]. *)
Lemma stops_after_space (p : N -> bool) ws x :
  all_space ws -> (forall c, is_space c = true -> p c = false) ->
  stops p x -> stops p (ws ++ x).
Proof.
  intros Hws Hp Hx. destruct ws as [| c ws]; simpl; [exact Hx |].
  apply Hp. unfold all_space in Hws. simpl in Hws.
  now apply andb_true_iff in Hws.
Qed.

Lemma stops_nonempty_space ws x :
  ws <> [] -> all_space ws -> stops is_name_char (ws ++ x).
Proof.
  intros Hne Hws. destruct ws as [| c ws]; [congruence |]. simpl.
  apply space_not_name. unfold all_space in Hws. simpl in Hws.
  now apply andb_true_iff in Hws.
Qed.

Lemma RE_FUNCTION_spec t :
  test_anchored RE_FUNCTION t = true <-> begins_function t.
Proof.
  rewrite test_anchored_spec. unfold RE_FUNCTION, Opt, Plus. split.
  - intros (p & rest & -> & H).
    apply matches_cat_iff in H as (s1 & s2 & -> & H1 & H2).
    apply matches_cat_iff in H2 as (f & d & -> & Hf & Hd).
    apply matches_str_iff in Hf. subst f.
    apply matches_cls_iff in Hd as (c & -> & Hc).
    assert (Hq : optional_async s1).
    { apply matches_alt_iff in H1 as [H1 | H1].
      - right. apply matches_cat_iff in H1 as (a & ws & -> & Ha & Hws).
        apply matches_str_iff in Ha. subst a.
        apply matches_cat_iff in Hws as (w1 & w2 & -> & Hw1 & Hw2).
        apply matches_cls_iff in Hw1 as (c1 & -> & Hc1).
        apply matches_star_cls_iff in Hw2.
        exists (c1 :: w2). repeat split; [discriminate |].
        unfold all_space. simpl. now rewrite Hc1.
      - left. now apply matches_eps_iff in H1. }
    rewrite <- !app_assoc. simpl. now constructor.
  - intros [q c rest Hq Hc].
    exists (q ++ u "function" ++ [c]), rest. split.
    + now rewrite <- !app_assoc.
    + apply m_cat.
      * destruct Hq as [-> | (ws & Hne & Hws & ->)].
        -- apply m_alt_r. constructor.
        -- apply m_alt_l. apply m_cat; [now apply matches_str_iff |].
           destruct ws as [| c1 ws]; [congruence |].
           unfold all_space in Hws. simpl in Hws.
           apply andb_true_iff in Hws as [Hc1 Hws].
           change (c1 :: ws) with ([c1] ++ ws).
           apply m_cat; [now constructor | now apply matches_star_cls_iff].
      * apply m_cat; [now apply matches_str_iff | now constructor].
Qed.

Lemma RE_ARROW_spec t :
  test_anchored RE_ARROW t = true <-> begins_plain_arrow t.
Proof.
  rewrite test_anchored_spec. unfold RE_ARROW, Chr. split.
  - intros (p & rest & -> & H).
    apply matches_alt_iff in H as [H | H].
    + apply matches_cls_iff in H as (c & -> & Hc).
      apply N.eqb_eq in Hc. subst c. constructor.
    + apply matches_cat_iff in H as (s1 & s2 & -> & H1 & H2).
      apply matches_cls_iff in H1 as (c & -> & Hc).
      apply matches_cat_iff in H2 as (w & s3 & -> & Hw & H3).
      apply matches_star_cls_iff in Hw.
      apply matches_cat_iff in H3 as (ws & a & -> & Hws & Ha).
      apply matches_star_cls_iff in Hws.
      apply matches_str_iff in Ha. subst a.
      simpl. rewrite <- !app_assoc. now constructor.
  - intros [rest | c w ws rest Hc Hw Hws].
    + exists [LPAREN], rest. split; [reflexivity |].
      apply m_alt_l. constructor. apply N.eqb_refl.
    + exists ([c] ++ w ++ ws ++ u "=>"), rest. split.
      * simpl. now rewrite <- !app_assoc.
      * apply m_alt_r. apply m_cat; [now constructor |].
        apply m_cat; [now apply matches_star_cls_iff |].
        apply m_cat; [now apply matches_star_cls_iff | now apply matches_str_iff].
Qed.

End Recognisers.

(* ================================================================== *)
(** * The Callable Normalizer *)

Section NormalizerFacts.

Lemma stops_paren_name R : stops is_name_char (LPAREN :: R).
Proof. reflexivity. Qed.

Lemma stops_paren_space R : stops is_space (LPAREN :: R).
Proof. reflexivity. Qed.

Lemma stops_name_head (p : N -> bool) x y :
  method_name x = true -> (forall c, is_name_char c = true -> p c = false) ->
  stops p (x ++ y).
Proof.
  intros Hx Hp. apply method_name_inv in Hx as (c & x' & -> & Hc & _).
  simpl. now apply Hp.
Qed.

(** A method name followed by its parameter list is cut after the name in
    one way only. *)
Lemma name_then_params name ws R f c rest :
  method_name name = true -> all_space ws ->
  forallb is_name_char f = true -> is_space c || (c =? LPAREN)%N = true ->
  f ++ c :: rest = name ++ ws ++ LPAREN :: R -> f = name.
Proof.
  intros Hn Hws Hf Hc E.
  apply method_name_inv in Hn as (_ & _ & _ & _ & Hn).
  apply (span_unique is_name_char) in E as [E _]; auto.
  - simpl. now apply delimiter_not_name.
  - apply stops_after_space; auto using space_not_name, stops_paren_name.
Qed.

Lemma method_not_function q name ws R :
  optional_async q -> method_name name = true -> name <> u "function" ->
  all_space ws -> ~ begins_function (q ++ name ++ ws ++ LPAREN :: R).
Proof.
  intros Hq Hn Hnf Hws H.
  remember (q ++ name ++ ws ++ LPAREN :: R) as t eqn:E.
  destruct H as [q' c rest Hq' Hc].
  pose proof (method_name_inv _ Hn) as (c0 & n' & En & Hc0 & Hid).
  destruct Hq as [-> | (ws1 & Hne1 & Hws1 & ->)];
    destruct Hq' as [-> | (ws' & Hne' & Hws' & ->)].
  - apply (@name_then_params name ws R (u "function") c rest) in E; auto.
  - rewrite <- app_assoc in E.
    apply (@span_unique is_name_char (u "async") name) in E as [_ E]; auto.
    + apply (@span_unique is_space ws' ws) in E as [_ E]; auto; try reflexivity.
      discriminate.
    + now apply stops_nonempty_space.
    + apply stops_after_space; auto using space_not_name, stops_paren_name.
  - subst name. rewrite <- app_assoc in E. discriminate.
  - rewrite <- !app_assoc in E. apply app_inv_head in E.
    apply (@span_unique is_space ws' ws1) in E as [_ E]; auto.
    + apply (@name_then_params name ws R (u "function") c rest) in E; auto.
    + reflexivity.
    + apply stops_name_head; auto using name_not_space.
Qed.

Lemma method_not_arrow q name ws R :
  optional_async q -> method_name name = true -> all_space ws ->
  ~ begins_plain_arrow (q ++ name ++ ws ++ LPAREN :: R).
Proof.
  intros Hq Hn Hws H.
  pose proof (method_name_inv _ Hn) as (c0 & n' & En & Hc0 & Hid).
  remember (q ++ name ++ ws ++ LPAREN :: R) as t eqn:E.
  destruct H as [rest | c w ws2 rest Hc Hw Hws2].
  - destruct Hq as [-> | (ws1 & _ & _ & ->)].
    + subst name. simpl in E. inversion E; subst. discriminate.
    + rewrite <- app_assoc in E. discriminate.
  - assert (Hcw : forallb is_name_char (c :: w) = true).
    { simpl. rewrite (start_name _ Hc). simpl.
      apply forallb_impl with (p := is_word); auto using word_name. }
    assert (Harrow : forall x, stops is_name_char (ws2 ++ u "=>" ++ x)).
    { intros x. apply stops_after_space; auto using space_not_name. reflexivity. }
    change (c :: w ++ ws2 ++ u "=>" ++ rest)
      with ((c :: w) ++ ws2 ++ u "=>" ++ rest) in E.
    destruct Hq as [-> | (ws1 & Hne1 & Hws1 & ->)].
    + apply (@span_unique is_name_char (c :: w) name) in E as [_ E]; auto.
      * apply (@span_unique is_space ws2 ws) in E as [_ E]; auto;
          try reflexivity. discriminate.
      * apply stops_after_space; auto using space_not_name, stops_paren_name.
    + rewrite <- app_assoc in E.
      apply (@span_unique is_name_char (c :: w) (u "async")) in E as [_ E]; auto.
      * apply (@span_unique is_space ws2 ws1) in E as [_ E]; auto.
        -- subst name. vm_compute in E. injection E as E _. subst c0.
           discriminate.
        -- reflexivity.
        -- apply stops_name_head; auto using name_not_space.
      * now apply stops_nonempty_space.
Qed.

Lemma method_stops_start q name x :
  optional_async q -> method_name name = true -> stops is_space (q ++ name ++ x).
Proof.
  intros [-> | (ws & _ & _ & ->)] Hn.
  - apply (@stops_name_head is_space name x); auto using name_not_space.
  - reflexivity.
Qed.

(** The rewrite of a text that is cut as qualifier, name, white space and
    parameter list, and that has no trailing white space. *)
Lemma normalize_method q name ws R :
  optional_async q -> method_name name = true -> name <> u "function" ->
  all_space ws -> stops is_space (rev (q ++ name ++ ws ++ LPAREN :: R)) ->
  let code := q ++ name ++ ws ++ LPAREN :: R in
  slice code (indexOf code LPAREN) = LPAREN :: R /\
  toFunctionExpression code =
    (if startsWith code (u "async ") then u "async " else [])
    ++ u "function" ++ LPAREN :: R.
Proof.
  intros Hq Hn Hnf Hws Hend code.
  assert (Hidx : indexOf code LPAREN = Z.of_nat (List.length (q ++ name ++ ws))).
  { unfold code. rewrite !app_assoc. rewrite <- (app_assoc q name ws).
    apply indexOf_first. rewrite !in_app_iff.
    intros [H | [H | H]].
    - now apply optional_async_no_paren in H.
    - now apply method_name_no_paren in H.
    - now apply all_space_no_paren in H. }
  assert (Hslice : slice code (indexOf code LPAREN) = LPAREN :: R).
  { rewrite Hidx. unfold code. rewrite !app_assoc. rewrite <- (app_assoc q name ws).
    apply slice_at_length. }
  split; [exact Hslice |].
  unfold toFunctionExpression.
  assert (Htrim : trim code = code).
  { apply trim_fixed; [now apply method_stops_start | exact Hend]. }
  rewrite Htrim.
  destruct (test_anchored RE_FUNCTION code) eqn:Ef.
  { apply RE_FUNCTION_spec in Ef. now apply method_not_function in Ef. }
  destruct (test_anchored RE_ARROW code) eqn:Ea.
  { apply RE_ARROW_spec in Ea. now apply method_not_arrow in Ea. }
  simpl orb. cbv iota.
  destruct (indexOf code LPAREN =? -1)%Z eqn:Ei.
  { apply Z.eqb_eq in Ei. rewrite Hidx in Ei. lia. }
  fold code. rewrite Hslice.
  destruct (startsWith code (u "async ")); reflexivity.
Qed.

Lemma method_text_cut q name ws params sep body :
  method_text q name ws params sep body
  = q ++ name ++ ws ++ LPAREN :: (params ++ u ")" ++ sep ++ u "{" ++ body ++ u "}").
Proof. reflexivity. Qed.

Lemma method_text_stops_end q name ws params sep body :
  stops is_space (rev (method_text q name ws params sep body)).
Proof.
  unfold method_text. rewrite !app_assoc, rev_app_distr. reflexivity.
Qed.

End NormalizerFacts.

Section NormalizerClaims.

Lemma stops_app_l (p : N -> bool) x y : x <> [] -> stops p x -> stops p (x ++ y).
Proof. destruct x; [congruence | auto]. Qed.

Lemma stops_app_inv (p : N -> bool) x y : x <> [] -> stops p (x ++ y) -> stops p x.
Proof. destruct x; [congruence | auto]. Qed.

Lemma rev_cons_nonempty (c : N) r : rev (c :: r) <> [].
Proof. simpl. intros H. now apply app_eq_nil in H as [_ H]. Qed.


Lemma no_paren_fixed code : ~ In LPAREN code -> toFunctionExpression code = code.
Proof.
  intros H. unfold toFunctionExpression.
  destruct (test_anchored RE_FUNCTION (trim code) || test_anchored RE_ARROW (trim code));
    [reflexivity |].
  assert (E : indexOf (trim code) LPAREN = (-1)%Z).
  { apply indexOf_absent. intros Hin. apply H.
    destruct (trim_infix code) as (a & b & E). rewrite E.
    rewrite !in_app_iff. auto. }
  now rewrite E.
Qed.




(** C6. A class-method text, that is an optional [async] qualifier, a
    method name other than the [function] keyword (a non-empty run of code
    units without white space, ( or =), optional white space, a
    parameter list and a body in braces, is rewritten to the text
    [function] followed by the input from its first ( onward, which is the
    parameter list and the body as they stand; the result is prefixed by
    [async ] exactly when the input begins with [async ]. *)
Theorem method_text_rewritten q name ws params sep body :
  optional_async q -> method_name name = true -> name <> u "function" ->
  all_space ws ->
  let code := method_text q name ws params sep body in
  let from_paren := slice code (indexOf code LPAREN) in
  from_paren = u "(" ++ params ++ u ")" ++ sep ++ u "{" ++ body ++ u "}" /\
  toFunctionExpression code =
    (if startsWith code (u "async ") then u "async " else [])
    ++ u "function" ++ from_paren.
Proof.
  intros Hq Hn Hnf Hws code from_paren.
  destruct (@normalize_method q name ws
              (params ++ u ")" ++ sep ++ u "{" ++ body ++ u "}") Hq Hn Hnf Hws)
    as [Hslice Hf].
  { apply method_text_stops_end. }
  assert (E : from_paren
              = u "(" ++ params ++ u ")" ++ sep ++ u "{" ++ body ++ u "}")
    by exact Hslice.
  split; [exact E |]. rewrite E. exact Hf.
Qed.

Lemma method_text_rewritten_witness :
  method_text (u "async ") (u "add") [] (u "a, b") (u " ") (u " return a + b ")
    = u "async add(a, b) { return a + b }" /\
  toFunctionExpression (u "async add(a, b) { return a + b }")
    = u "async function(a, b) { return a + b }".
Proof.
  split; [reflexivity |].
  refine (proj2 (@method_text_rewritten (u "async ") (u "add") [] (u "a, b")
                   (u " ") (u " return a + b ") _ _ _ _)).
  - right. exists (u " "). repeat split. discriminate.
  - reflexivity.
  - discriminate.
  - reflexivity.
Defined.



Example normalize_method_example :
  toFunctionExpression (u "add(a, b) { return a + b }")
  = u "function(a, b) { return a + b }".
Proof. reflexivity. Qed.

(** The rewritten text is cut from the trimmed input. *)
Example normalize_trims_example :
  toFunctionExpression (u "  async  run (ms) { while (ms--) ; }  ")
  = u "async function(ms) { while (ms--) ; }".
Proof. reflexivity. Qed.

(** Recognised text is returned as it came, untrimmed. *)
Example normalize_keeps_example :
  toFunctionExpression (u " (a, b) => a + b ") = u " (a, b) => a + b ".
Proof. reflexivity. Qed.


End NormalizerClaims.

(* ================================================================== *)
(** * The dispatcher: the invariant of a call *)

Section DispatcherInvariant.

Variable captureStack : jsstring -> option jsstring.
Variable d : Decoration.
Variable args : list JsValue.

Lemma count_app p a b : count p (a ++ b) = count p a + count p b.
Proof. unfold count. now rewrite filter_app, length_app. Qed.

Lemma tasks_sent_app a b : tasks_sent (a ++ b) = tasks_sent a ++ tasks_sent b.
Proof.
  induction a as [| e a IH]; simpl; [reflexivity |].
  destruct e; simpl; now rewrite IH.
Qed.

Lemma promise_app a b :
  count is_settle a = 0 -> promise (a ++ b) = promise b.
Proof.
  induction a as [| e a IH]; simpl; [reflexivity |].
  unfold count in *. destruct e; simpl; auto; discriminate.
Qed.

Lemma promise_pending_iff t : promise t = Pending <-> count is_settle t = 0.
Proof.
  induction t as [| e t IH]; simpl; [tauto |].
  unfold count in *. destruct e; simpl; auto; split; discriminate.
Qed.

Lemma truthy_is_some : truthy_timeout (timeout d) = true ->
  exists n, timeout d = Some n /\ n <> 0%Z.
Proof.
  unfold truthy_timeout. destruct (timeout d) as [n |]; [| discriminate].
  intros H. exists n. split; [reflexivity |].
  apply negb_true_iff, Z.eqb_neq in H. exact H.
Qed.

Lemma settle_trace e s :
  pending d args s -> trace (settle e s) = trace s ++ settling_effects d e.
Proof.
  intros [_ _ _ _ _ _ _ Ht _]. unfold settle, settling_effects, cleanup.
  destruct s as [tid res armed ml el xl tr]. simpl in *. subst tid.
  destruct (truthy_timeout (timeout d)) eqn:T.
  - destruct (truthy_is_some T) as (n & -> & _). simpl.
    now rewrite <- !app_assoc.
  - simpl. now rewrite <- !app_assoc.
Qed.

Lemma settle_state e s :
  pending d args s ->
  isResolved (settle e s) = true /\ timeoutId (settle e s) = None /\
  timerArmed (settle e s) = false.
Proof.
  intros [_ _ _ _ _ _ _ Ht Ha]. unfold settle, cleanup.
  destruct s as [tid res armed ml el xl tr]. simpl in *. subst tid.
  destruct (truthy_timeout (timeout d)) eqn:T.
  - destruct (truthy_is_some T) as (n & -> & _). simpl. auto.
  - simpl. repeat split. destruct armed; [symmetry; now apply Ha | reflexivity].
Qed.

Lemma count_settling p e :
  count p (settling_effects d e)
  = Nat.b2n (truthy_timeout (timeout d) && p ClearTimeout)
    + Nat.b2n (p Terminate) + Nat.b2n (p e).
Proof.
  unfold settling_effects, count.
  destruct (truthy_timeout (timeout d)); simpl;
    destruct (p ClearTimeout), (p Terminate), (p e); reflexivity.
Qed.

Lemma settle_consistent e s :
  pending d args s -> is_settle e = true -> consistent d args (settle e s).
Proof.
  intros Hp He. pose proof (settle_trace e Hp) as Htr.
  destruct (settle_state e Hp) as (Hres & Htid & Harm).
  destruct Hp as [Hl Hs Hte Hc Hset Hsent Hw Ht Ha].
  constructor; rewrite ?Htr, ?Hres, ?Htid, ?Harm, ?count_app, ?count_settling,
    ?tasks_sent_app, ?Hs, ?Hte, ?Hc, ?Hset, ?Hsent, ?Hw; simpl;
    try congruence;
    unfold settling_effects; rewrite ?He;
    destruct e; try discriminate;
    destruct (truthy_timeout (timeout d)); reflexivity.
Qed.

Lemma consistent_pending s :
  consistent d args s -> isResolved s = false -> pending d args s.
Proof.
  intros [Hs Hte Hc Hset Hsent Hw Ht Ha _ _] Hl. rewrite Hl in *. simpl in *.
  constructor; auto.
  intros H. rewrite H in Ha. now destruct (truthy_timeout (timeout d)).
Qed.

Lemma consume_pending ev s : pending d args s -> pending d args (consume ev s).
Proof.
  intros [Hl Hs Hte Hc Hset Hsent Hw Ht Ha].
  constructor; simpl; auto. destruct ev; auto. discriminate.
Qed.

Lemma emit_log_pending label text s :
  pending d args s -> pending d args (emit (ConsoleError label text) s).
Proof.
  intros [Hl Hs Hte Hc Hset Hsent Hw Ht Ha].
  constructor; simpl; unfold count in *;
    rewrite ?filter_app, ?length_app, ?tasks_sent_app; simpl;
    rewrite ?app_nil_r; auto; lia.
Qed.

Lemma consume_settled ev s :
  consistent d args s -> isResolved s = true -> consistent d args (consume ev s).
Proof.
  intros [Hs Hte Hc Hset Hsent Hw Ht Ha Hm He] Hl.
  constructor; simpl; auto; try congruence.
  rewrite Hl in *. simpl in *. rewrite Ha. now destruct ev.
Qed.

Lemma emit_log_settled label text s :
  consistent d args s -> isResolved s = true ->
  consistent d args (emit (ConsoleError label text) s).
Proof.
  intros [Hs Hte Hc Hset Hsent Hw Ht Ha Hm He] Hl.
  constructor; simpl; unfold count in *;
    rewrite ?filter_app, ?length_app, ?tasks_sent_app; simpl;
    rewrite ?app_nil_r; auto; try congruence; lia.
Qed.

Lemma resolveOnce_unfold v s :
  resolveOnce v s = if isResolved s then s else settle (Resolve v) s.
Proof. unfold resolveOnce. now destruct (isResolved s). Qed.

Lemma rejectOnce_unfold e s :
  rejectOnce e s = if isResolved s then s else settle (Reject e) s.
Proof. unfold rejectOnce. now destruct (isResolved s). Qed.

Lemma resolveOnce_consistent v s :
  consistent d args s -> consistent d args (resolveOnce v s).
Proof.
  intros H. rewrite resolveOnce_unfold. destruct (isResolved s) eqn:E; [exact H |].
  apply settle_consistent; [now apply consistent_pending | reflexivity].
Qed.

Lemma rejectOnce_consistent e s :
  consistent d args s -> consistent d args (rejectOnce e s).
Proof.
  intros H. rewrite rejectOnce_unfold. destruct (isResolved s) eqn:E; [exact H |].
  apply settle_consistent; [now apply consistent_pending | reflexivity].
Qed.

Lemma rejectOnce_pending e s :
  pending d args s -> consistent d args (rejectOnce e s).
Proof.
  intros H. rewrite rejectOnce_unfold. rewrite (p_latch H).
  now apply settle_consistent.
Qed.

Lemma resolveOnce_pending v s :
  pending d args s -> consistent d args (resolveOnce v s).
Proof.
  intros H. rewrite resolveOnce_unfold. rewrite (p_latch H).
  now apply settle_consistent.
Qed.

Lemma deliver_consistent s ev :
  consistent d args s -> consistent d args (deliver captureStack d s ev).
Proof.
  intros H. unfold deliver. destruct (enabled ev s) eqn:En; [| exact H].
  destruct (isResolved s) eqn:Hl.
  - pose proof (consume_settled ev H Hl) as Hc.
    destruct ev; simpl.
    + now apply rejectOnce_consistent.
    + unfold on_message. destruct (Wire.error value).
      * now apply rejectOnce_consistent.
      * now apply resolveOnce_consistent.
    + unfold on_error. destruct (JsStr.eqb (name err) (u "ReferenceError")).
      * apply rejectOnce_consistent. now apply emit_log_settled.
      * now apply rejectOnce_consistent.
    + unfold on_exit. simpl. rewrite Hl, andb_false_r. exact Hc.
  - pose proof (consume_pending ev (consistent_pending H Hl)) as Hp.
    destruct ev; simpl.
    + now apply rejectOnce_pending.
    + unfold on_message. destruct (Wire.error value).
      * now apply rejectOnce_pending.
      * now apply resolveOnce_pending.
    + unfold on_error. destruct (JsStr.eqb (name err) (u "ReferenceError")).
      * apply rejectOnce_pending. now apply emit_log_pending.
      * now apply rejectOnce_pending.
    + unfold on_exit. simpl. rewrite Hl, andb_true_r.
      destruct (code =? 0)%Z; simpl.
      * destruct H as [Hs Hte Hc Hset Hsent Hw Ht Ha Hm He].
        constructor; simpl; auto.
      * now apply rejectOnce_pending.
Qed.

Lemma start_consistent : consistent d args (start d args).
Proof.
  unfold start. destruct (timeout d) as [n |] eqn:T.
  - destruct (truthy_timeout (Some n)) eqn:Tr;
      constructor; simpl; rewrite ?T, ?Tr; reflexivity.
  - constructor; simpl; rewrite ?T; reflexivity.
Qed.

Lemma run_from_consistent evs : forall s,
  consistent d args s -> consistent d args (run captureStack d evs s).
Proof.
  induction evs as [| ev evs IH]; intros s H; simpl; [exact H |].
  apply IH. now apply deliver_consistent.
Qed.

(** Every state a call reaches satisfies the invariant. *)
Lemma run_consistent evs :
  consistent d args (run captureStack d evs (start d args)).
Proof. apply run_from_consistent, start_consistent. Qed.

End DispatcherInvariant.

(* ================================================================== *)
(** * The dispatcher: settlement, cleanup and the error classes *)

Section DispatcherClaims.

Variable captureStack : jsstring -> option jsstring.
Variable d : Decoration.
Variable args : list JsValue.

Local Abbreviation reach evs := (run captureStack d evs (start d args)).
Local Abbreviation step s ev := (deliver captureStack d s ev).

Lemma promise_settling e :
  is_settle e = true -> promise (settling_effects d e) = promise [e].
Proof.
  unfold settling_effects. destruct (truthy_timeout (timeout d)); reflexivity.
Qed.

Lemma promise_app_settled a b : promise a <> Pending -> promise (a ++ b) = promise a.
Proof.
  induction a as [| e a IH]; simpl; [congruence |].
  destruct e; auto.
Qed.

Lemma promise_app_log a label text :
  promise (a ++ [ConsoleError label text]) = promise a.
Proof. induction a as [| e a IH]; simpl; [reflexivity |]. destruct e; auto. Qed.

(** On a call that has not settled, [rejectOnce] and [resolveOnce] add the
    settling effects (the once listener or the timer being consumed first). *)
Lemma rejectOnce_adds ev e s :
  consistent d args s -> isResolved s = false ->
  trace (rejectOnce e (consume ev s)) = trace s ++ settling_effects d (Reject e).
Proof.
  intros H Hl. rewrite rejectOnce_unfold. simpl isResolved. rewrite Hl.
  rewrite (@settle_trace d args).
  - reflexivity.
  - apply consume_pending. now apply consistent_pending.
Qed.

Lemma resolveOnce_adds ev v s :
  consistent d args s -> isResolved s = false ->
  trace (resolveOnce v (consume ev s)) = trace s ++ settling_effects d (Resolve v).
Proof.
  intros H Hl. rewrite resolveOnce_unfold. simpl isResolved. rewrite Hl.
  rewrite (@settle_trace d args).
  - reflexivity.
  - apply consume_pending. now apply consistent_pending.
Qed.

Lemma pending_promise s :
  consistent d args s -> isResolved s = false -> count is_settle (trace s) = 0.
Proof. intros H Hl. rewrite (c_settle H), Hl. reflexivity. Qed.

Lemma settled_callbacks s :
  isResolved s = true ->
  (forall value, on_message captureStack value s = s) /\
  on_timeout captureStack d s = s /\
  (forall code, on_exit captureStack code s = s) /\
  (forall e, rejectOnce e s = s).
Proof.
  intros Hl. repeat split; intros;
    unfold on_message, on_timeout, on_exit, rejectOnce, resolveOnce;
    rewrite ?Hl; simpl; rewrite ?andb_false_r; auto.
  destruct (Wire.error value); reflexivity.
Qed.

Lemma settled_step s ev :
  isResolved s = true ->
  isResolved (step s ev) = true /\
  promise (trace (step s ev)) = promise (trace s) /\
  filter is_settle (trace (step s ev)) = filter is_settle (trace s) /\
  match ev with
  | ErrorReported _ => True
  | _ => trace (step s ev) = trace s
  end.
Proof.
  intros Hl. unfold deliver. destruct (enabled ev s); [| now destruct ev].
  assert (Hc : isResolved (consume ev s) = true) by exact Hl.
  destruct (@settled_callbacks (consume ev s) Hc) as (Hm & Ht & Hx & _).
  destruct ev; simpl callback; rewrite ?Hm, ?Ht, ?Hx; auto.
  unfold on_error, rejectOnce.
  destruct (JsStr.eqb (name err) (u "ReferenceError")); simpl; rewrite Hl; simpl; auto.
  rewrite promise_app_log, filter_app. simpl. rewrite app_nil_r. auto.
Qed.

(** What one event adds to the trace of a call that has not settled. *)
Lemma pending_step s ev :
  consistent d args s -> isResolved s = false -> enabled ev s = true ->
  trace (step s ev) = trace s ++
    match ev with
    | TimerFired =>
        settling_effects d (Reject
          (assign (new_Error captureStack
                     (u "Worker execution timed out after "
                      ++ template_timeout (timeout d) ++ u " ms"))
                  (u "context")
                  (JsString (className d ++ u "/" ++ String_of_key (propertyKey d)))))
    | MessageReceived value =>
        match Wire.error value with
        | Some e =>
            settling_effects d (Reject
              {| name := Wire.name e; message := Wire.message e;
                 stack := Wire.stack e; props := [] |})
        | None => settling_effects d (Resolve (Wire.success value))
        end
    | ErrorReported err =>
        if JsStr.eqb (name err) (u "ReferenceError") then
          ConsoleError (u "Worker reference error: ") (message err)
          :: settling_effects d (Reject
               (new_Error captureStack
                  (u "Reference error in worker: " ++ message err)))
        else settling_effects d (Reject err)
    | Exited code =>
        if (code =? 0)%Z then []
        else settling_effects d (Reject
               (new_Error captureStack
                  (u "Worker stopped with exit code " ++ number_to_string code)))
    end.
Proof.
  intros H Hl En. unfold deliver. rewrite En.
  destruct ev; simpl callback.
  - unfold on_timeout. now rewrite rejectOnce_adds.
  - unfold on_message. destruct (Wire.error value).
    + now rewrite rejectOnce_adds.
    + now rewrite resolveOnce_adds.
  - unfold on_error. destruct (JsStr.eqb (name err) (u "ReferenceError")).
    + rewrite rejectOnce_unfold. simpl isResolved. rewrite Hl.
      rewrite (@settle_trace d args).
      * simpl. now rewrite <- app_assoc.
      * apply emit_log_pending, consume_pending. now apply consistent_pending.
    + now rewrite rejectOnce_adds.
  - unfold on_exit. simpl isResolved. rewrite Hl, andb_true_r.
    destruct (code =? 0)%Z; simpl negb; cbv iota.
    + simpl. now rewrite app_nil_r.
    + now rewrite rejectOnce_adds.
Qed.

Lemma reach_consistent evs : consistent d args (reach evs).
Proof. apply run_consistent. Qed.

Lemma latch_promise s :
  consistent d args s -> (promise (trace s) = Pending <-> isResolved s = false).
Proof.
  intros H. rewrite promise_pending_iff, (c_settle H).
  destruct (isResolved s); simpl; split; congruence.
Qed.

(** C1. In every state a call reaches, whatever events arrived and in
    whatever order, the promise has been settled at most once, and it has
    been settled exactly when the latch is set. From a state that has not
    settled, a message, the armed timer firing, an error and a non-zero exit
    each settle it (a zero exit does not). Once it has settled, a later
    message, timer firing or exit event changes nothing: the callback
    returns the state it was given and the trace stays as it is; no later
    event of any kind settles again or changes the promise. *)
Theorem settled_at_most_once evs :
  let s := reach evs in
  count is_settle (trace s) <= 1 /\
  (count is_settle (trace s) = 1 <-> isResolved s = true) /\
  (promise (trace s) = Pending <-> isResolved s = false) /\
  (isResolved s = false -> forall ev, enabled ev s = true ->
     match ev with
     | Exited 0%Z => trace (step s ev) = trace s /\ isResolved (step s ev) = false
     | _ => isResolved (step s ev) = true /\
            count is_settle (trace (step s ev)) = 1
     end) /\
  (isResolved s = true -> forall ev,
     isResolved (step s ev) = true /\
     promise (trace (step s ev)) = promise (trace s) /\
     filter is_settle (trace (step s ev)) = filter is_settle (trace s) /\
     match ev with
     | ErrorReported _ => True
     | _ => callback captureStack d ev s = s /\ trace (step s ev) = trace s
     end).
Proof.
  intros s. pose proof (reach_consistent evs) as H. fold s in H.
  pose proof (c_settle H) as Hs.
  split; [| split; [| split; [| split]]].
  - rewrite Hs. destruct (isResolved s); simpl; lia.
  - rewrite Hs. destruct (isResolved s); simpl; split; congruence.
  - now apply latch_promise.
  - intros Hl ev En.
    pose proof (deliver_consistent captureStack ev H) as H'.
    pose proof (pending_step ev H Hl En) as Htr.
    assert (Hone : forall X, trace (step s ev) = trace s ++ X ->
                   count is_settle X = 1 ->
                   isResolved (step s ev) = true /\
                   count is_settle (trace (step s ev)) = 1).
    { intros X E HX. pose proof (c_settle H') as C.
      rewrite E, count_app, (pending_promise H Hl), HX in *. simpl in C.
      destruct (isResolved (step s ev)); [auto | discriminate]. }
    assert (Hset : forall e, is_settle e = true ->
                   count is_settle (settling_effects d e) = 1).
    { intros e He. rewrite count_settling, He.
      rewrite andb_false_r. reflexivity. }
    destruct ev as [| value | err | code].
    + eapply Hone; [exact Htr | now apply Hset].
    + eapply Hone; [exact Htr |]. destruct (Wire.error value); now apply Hset.
    + eapply Hone; [exact Htr |].
      destruct (JsStr.eqb (name err) (u "ReferenceError")); [| now apply Hset].
      change (ConsoleError ?a ?b :: ?l) with ([ConsoleError a b] ++ l).
      rewrite count_app, Hset; reflexivity.
    + destruct code as [| c | c].
      * simpl in Htr. rewrite app_nil_r in Htr. split; [exact Htr |].
        unfold deliver. rewrite En. simpl. unfold on_exit. simpl. exact Hl.
      * eapply Hone; [exact Htr | now apply Hset].
      * eapply Hone; [exact Htr | now apply Hset].
  - intros Hl ev. destruct (@settled_step s ev Hl) as (H1 & H2 & H3 & H4).
    repeat split; auto.
    destruct (@settled_callbacks s Hl) as (Hm & Ht & Hx & _).
    destruct ev; auto; simpl callback; rewrite ?Hm, ?Ht, ?Hx; auto.
Qed.

(** C2. Once the promise of a call has settled, by whichever event,
    [worker.terminate()] has run exactly once, the timer has been cleared
    exactly once if one was set (and never otherwise), no timer is left
    armed and [timeoutId] is null. Before it settles neither has run, and
    the step that settles it adds, in this order, the clearing of the timer
    where one was set, the termination of the worker and the settlement. *)
Theorem cleanup_exactly_once evs :
  let s := reach evs in
  count is_set_timeout (trace s) = Nat.b2n (truthy_timeout (timeout d)) /\
  (promise (trace s) <> Pending ->
     count is_terminate (trace s) = 1 /\
     count is_clear (trace s) = Nat.b2n (truthy_timeout (timeout d)) /\
     timerArmed s = false /\ timeoutId s = None) /\
  (promise (trace s) = Pending ->
     count is_terminate (trace s) = 0 /\ count is_clear (trace s) = 0 /\
     forall ev, promise (trace (step s ev)) <> Pending ->
       exists log e,
         is_settle e = true /\
         count is_terminate log = 0 /\ count is_clear log = 0 /\
         trace (step s ev) = trace s ++ log ++ settling_effects d e).
Proof.
  intros s. pose proof (reach_consistent evs) as H. fold s in H.
  pose proof (latch_promise H) as Hp.
  split; [apply (c_set H) | split].
  - intros Hne. assert (Hl : isResolved s = true).
    { destruct (isResolved s); [reflexivity |]. exfalso. apply Hne. now apply Hp. }
    rewrite (c_terminate H), (c_clear H), (c_armed H), (c_timer H), Hl. auto.
  - intros Hpend. apply Hp in Hpend as Hl.
    rewrite (c_terminate H), (c_clear H), Hl. repeat split.
    intros ev Hne.
    destruct (enabled ev s) eqn:En.
    2:{ exfalso. apply Hne. unfold deliver. now rewrite En. }
    pose proof (pending_step ev H Hl En) as Htr. rewrite Htr.
    destruct ev as [| value | err | code].
    + eexists [], _. rewrite app_nil_l. repeat split; reflexivity.
    + destruct (Wire.error value); eexists [], _; rewrite app_nil_l; repeat split; reflexivity.
    + destruct (JsStr.eqb (name err) (u "ReferenceError")).
      * eexists [_], _. repeat split; reflexivity.
      * eexists [], _. rewrite app_nil_l. repeat split; reflexivity.
    + destruct (code =? 0)%Z.
      * exfalso. apply Hne. rewrite Htr, app_nil_r. exact Hpend.
      * eexists [], _. rewrite app_nil_l. repeat split; reflexivity.
Qed.

(** C3. A message that arrives before the call has settled settles it: if
    it carries an error, the promise is rejected with an error that has the
    message, the stack and the name the worker sent; otherwise it is
    resolved with the [success] value, whatever that value is ([undefined]
    and [null] included). *)
Theorem message_settles evs value :
  let s := reach evs in
  isResolved s = false ->
  let s' := step s (MessageReceived value) in
  isResolved s' = true /\
  promise (trace s') =
    match Wire.error value with
    | Some e => Rejected {| name := Wire.name e; message := Wire.message e;
                            stack := Wire.stack e; props := [] |}
    | None => Fulfilled (Wire.success value)
    end.
Proof.
  intros s Hl s'. pose proof (reach_consistent evs) as H. fold s in H.
  assert (En : enabled (MessageReceived value) s = true)
    by (apply (c_message_listener H Hl)).
  pose proof (pending_step (MessageReceived value) H Hl En) as Htr.
  fold s' in Htr. split.
  - pose proof (deliver_consistent captureStack (MessageReceived value) H) as H'.
    fold s' in H'. pose proof (c_settle H') as C.
    rewrite Htr, count_app, (pending_promise H Hl) in C.
    destruct (isResolved s'); [reflexivity |].
    destruct (Wire.error value); rewrite count_settling in C; simpl in C;
      rewrite andb_false_r in C; discriminate.
  - rewrite Htr, promise_app by (now apply pending_promise).
    destruct (Wire.error value); now rewrite promise_settling.
Qed.


(** C8. An error event on a call that has not settled rejects it. When the
    error's name is [ReferenceError], a line is logged first and the
    rejection carries a new error whose message is
    [Reference error in worker: ] followed by the message of the error
    reported; any other error is the rejection itself, unmodified. *)
Theorem reference_error_classified evs err :
  let s := reach evs in
  isResolved s = false ->
  let s' := step s (ErrorReported err) in
  (name err = u "ReferenceError" ->
     trace s' = trace s
       ++ [ConsoleError (u "Worker reference error: ") (message err)]
       ++ settling_effects d
            (Reject {| name := u "Error";
                       message := u "Reference error in worker: " ++ message err;
                       stack := captureStack
                                  (u "Reference error in worker: " ++ message err);
                       props := [] |}) /\
     promise (trace s') =
       Rejected {| name := u "Error";
                   message := u "Reference error in worker: " ++ message err;
                   stack := captureStack
                              (u "Reference error in worker: " ++ message err);
                   props := [] |}) /\
  (name err <> u "ReferenceError" ->
     trace s' = trace s ++ settling_effects d (Reject err) /\
     promise (trace s') = Rejected err).
Proof.
  intros s Hl s'. pose proof (reach_consistent evs) as H. fold s in H.
  assert (En : enabled (ErrorReported err) s = true)
    by (apply (c_error_listener H Hl)).
  pose proof (pending_step (ErrorReported err) H Hl En) as Htr.
  cbv beta iota in Htr. fold s' in Htr.
  split; intros Hn.
  - apply eqb_eq in Hn. rewrite Hn in Htr. split; [exact Htr |].
    rewrite Htr, promise_app by (now apply pending_promise).
    simpl. now rewrite promise_settling.
  - assert (E : JsStr.eqb (name err) (u "ReferenceError") = false).
    { destruct (JsStr.eqb (name err) (u "ReferenceError")) eqn:E; [| reflexivity].
      apply eqb_eq in E. contradiction. }
    rewrite E in Htr. split; [exact Htr |].
    rewrite Htr, promise_app by (now apply pending_promise).
    now rewrite promise_settling.
Qed.

End DispatcherClaims.

Section DispatcherWitnesses.

Import Examples.

Lemma settled_at_most_once_witness :
  let s0 := start add [JsNumber 5; JsNumber 10] in
  let s := run no_stack add [MessageReceived (success_of (JsNumber 15))] s0 in
  (isResolved s0 = false /\
   isResolved (deliver no_stack add s0 (Exited 1)) = true) /\
  (isResolved s = true /\
   trace (deliver no_stack add s (MessageReceived (failure_of (u "Error") (u "late"))))
     = trace s /\
   promise (trace (deliver no_stack add s (Exited 1))) = Fulfilled (JsNumber 15)).
Proof.
  intros s0 s. split.
  - split; [reflexivity |].
    destruct (@settled_at_most_once no_stack add [JsNumber 5; JsNumber 10] [])
      as (_ & _ & _ & Hpending & _).
    exact (proj1 (Hpending eq_refl (Exited 1) eq_refl)).
  - split; [reflexivity |].
    destruct (@settled_at_most_once no_stack add [JsNumber 5; JsNumber 10]
                [MessageReceived (success_of (JsNumber 15))])
      as (_ & _ & _ & _ & Hsettled).
    split.
    + exact (proj2 (proj2 (proj2 (proj2
               (Hsettled eq_refl
                  (MessageReceived (failure_of (u "Error") (u "late")))))))).
    + exact (proj1 (proj2 (Hsettled eq_refl (Exited 1)))).
Defined.

Lemma cleanup_exactly_once_witness :
  let s := run no_stack slow [TimerFired; Exited 1] (start slow [JsNumber 500]) in
  promise (trace s) <> Pending /\
  count is_terminate (trace s) = 1 /\ count is_clear (trace s) = 1 /\
  timerArmed s = false /\ timeoutId s = None.
Proof.
  intros s.
  assert (Hne : promise (trace s) <> Pending) by (vm_compute; discriminate).
  split; [exact Hne |].
  exact (proj1 (proj2 (@cleanup_exactly_once no_stack slow [JsNumber 500]
                         [TimerFired; Exited 1])) Hne).
Defined.

Lemma message_settles_witness :
  promise (trace (deliver no_stack add (start add [JsNumber 5; JsNumber 10])
                    (MessageReceived (success_of JsNull))))
    = Fulfilled JsNull /\
  promise (trace (deliver no_stack add (start add [JsNumber 5; JsNumber 10])
                    (MessageReceived (success_of JsUndefined))))
    = Fulfilled JsUndefined /\
  promise (trace (deliver no_stack add (start add [JsNumber 5; JsNumber 10])
                    (MessageReceived
                       (failure_of (u "TypeError") (u "This is a type error")))))
    = Rejected {| name := u "TypeError"; message := u "This is a type error";
                  stack := None; props := [] |}.
Proof.
  split; [| split].
  - exact (proj2 (@message_settles no_stack add [JsNumber 5; JsNumber 10] []
                    (success_of JsNull) eq_refl)).
  - exact (proj2 (@message_settles no_stack add [JsNumber 5; JsNumber 10] []
                    (success_of JsUndefined) eq_refl)).
  - exact (proj2 (@message_settles no_stack add [JsNumber 5; JsNumber 10] []
                    (failure_of (u "TypeError") (u "This is a type error"))
                    eq_refl)).
Defined.


Lemma reference_error_classified_witness :
  let s := start add [JsNumber 5; JsNumber 10] in
  promise (trace (deliver no_stack add s
                    (ErrorReported {| name := u "ReferenceError";
                                      message := u "helper is not defined";
                                      stack := None; props := [] |})))
    = Rejected {| name := u "Error";
                  message := u "Reference error in worker: helper is not defined";
                  stack := None; props := [] |} /\
  promise (trace (deliver no_stack add s
                    (ErrorReported {| name := u "RangeError";
                                      message := u "out of memory";
                                      stack := None; props := [] |})))
    = Rejected {| name := u "RangeError"; message := u "out of memory";
                  stack := None; props := [] |}.
Proof.
  intros s. split.
  - exact (proj2 (proj1 (@reference_error_classified no_stack add
                           [JsNumber 5; JsNumber 10] []
                           {| name := u "ReferenceError";
                              message := u "helper is not defined";
                              stack := None; props := [] |} eq_refl) eq_refl)).
  - refine (proj2 (proj2 (@reference_error_classified no_stack add
                            [JsNumber 5; JsNumber 10] []
                            {| name := u "RangeError";
                               message := u "out of memory";
                               stack := None; props := [] |} eq_refl) _)).
    discriminate.
Defined.

End DispatcherWitnesses.

(* ================================================================== *)
(** * A timeout of zero *)

Section ZeroTimeout.

Variable captureStack : jsstring -> option jsstring.

(** Only the timer callback reads the decoration. *)
Lemma deliver_unarmed d1 d2 s ev :
  timerArmed s = false ->
  deliver captureStack d1 s ev = deliver captureStack d2 s ev.
Proof.
  intros Ha. unfold deliver. destruct ev; simpl; [now rewrite Ha | | |]; reflexivity.
Qed.

Lemma run_unarmed d1 d2 args evs : forall s,
  truthy_timeout (timeout d1) = false -> consistent d1 args s ->
  run captureStack d1 evs s = run captureStack d2 evs s.
Proof.
  induction evs as [| ev evs IH]; intros s T H; simpl; [reflexivity |].
  assert (Ha : timerArmed s = false) by (rewrite (c_armed H), T; apply andb_false_r).
  rewrite <- (@deliver_unarmed d1 d2 s ev Ha).
  apply IH; [exact T |]. now apply deliver_consistent.
Qed.

(** C10. A call decorated with a timeout of 0 starts in the state of a call
    decorated without a timeout and stays in step with it under every
    sequence of events: no timer is set, none is ever armed, and a timer
    event has nothing to run, so the timeout callback, the only source of
    the timeout error, never runs. *)
Theorem zero_timeout_unbounded cls key src args evs :
  let d0 := {| timeout := Some 0%Z; className := cls; propertyKey := key;
               originalMethod := src |} in
  let dn := {| timeout := None; className := cls; propertyKey := key;
               originalMethod := src |} in
  let s := run captureStack d0 evs (start d0 args) in
  start d0 args = start dn args /\
  s = run captureStack dn evs (start dn args) /\
  count is_set_timeout (trace s) = 0 /\
  timeoutId s = None /\ timerArmed s = false /\
  enabled TimerFired s = false /\
  deliver captureStack d0 s TimerFired = s.
Proof.
  intros d0 dn s.
  pose proof (run_consistent captureStack d0 args evs) as H. fold s in H.
  assert (Ha : timerArmed s = false) by (rewrite (c_armed H); apply andb_false_r).
  split; [reflexivity |]. split.
  - unfold s. change (start dn args) with (start d0 args).
    apply run_unarmed with (args := args); [reflexivity | apply start_consistent].
  - split; [exact (c_set H) |]. split.
    + rewrite (c_timer H). now destruct (isResolved s).
    + repeat split; auto. unfold deliver. simpl. now rewrite Ha.
Qed.

End ZeroTimeout.

(* ================================================================== *)
(** * The worker side *)

Section WorkerClaims.

Variable Env : Type.
Variable Fn : Type.
Variable newFunction : Env -> jsstring -> Completion Fn.
Variable awaitApply : Env -> Fn -> JsValue -> list JsValue -> Completion JsValue.

Local Abbreviation handle env task :=
  (Worker.on_message newFunction awaitApply env task).

(** The handler, path by path. *)
Lemma on_message_paths env fnCode args :
  let body := u "return " ++ toFunctionExpression fnCode in
  handle env (fnCode, args) =
    match newFunction env body with
    | Normal fn =>
        match awaitApply env fn (JsObject []) args with
        | Normal result =>
            ([Worker.Evaluated Fn body; Worker.Applied fn (JsObject []) args;
              Worker.Posted Fn (Worker.success_message result)], Normal tt)
        | Throw e =>
            ([Worker.Evaluated Fn body; Worker.Applied fn (JsObject []) args;
              Worker.Posted Fn (Worker.error_message e)], Normal tt)
        | Unsettled =>
            ([Worker.Evaluated Fn body; Worker.Applied fn (JsObject []) args],
             Unsettled)
        end
    | Throw e =>
        ([Worker.Evaluated Fn body; Worker.Posted Fn (Worker.error_message e)], Normal tt)
    | Unsettled => ([Worker.Evaluated Fn body], Unsettled)
    end.
Proof.
  intros body. unfold Worker.on_message, Worker.do_newFunction,
    Worker.do_awaitApply, Worker.postMessage, Worker.bind, Worker.try_catch.
  fold body. destruct (newFunction env body) as [fn | e |]; simpl; auto.
  destruct (awaitApply env fn (JsObject []) args); reflexivity.
Qed.




(** C9. The wrapper posts one message, the pair of the method's text and
    the call's arguments, whatever instance it is called on; the worker
    applies the callable to an empty object as [this]. Two calls whose
    method text and arguments are the same, made on any two instances, send
    the same Task, and the worker does and answers the same for both. *)
Theorem instance_not_forwarded env captureStack d1 d2 this1 this2 args evs :
  originalMethod d1 = originalMethod d2 ->
  let s1 := decorated d1 this1 args in
  let s2 := decorated d2 this2 args in
  tasks_sent (trace (run captureStack d1 evs s1)) = [(originalMethod d1, args)] /\
  tasks_sent (trace s1) = tasks_sent (trace s2) /\
  Forall (eq (JsObject []))
    (Worker.this_bindings (fst (handle env (originalMethod d1, args)))) /\
  List.map (fun task => handle env task) (tasks_sent (trace s1))
    = List.map (fun task => handle env task) (tasks_sent (trace s2)) /\
  Worker.outbox newFunction awaitApply env (tasks_sent (trace s1))
    = Worker.outbox newFunction awaitApply env (tasks_sent (trace s2)).
Proof.
  intros Hsrc s1 s2.
  assert (E1 : tasks_sent (trace s1) = [(originalMethod d1, args)])
    by apply (c_sent (start_consistent d1 args)).
  assert (E2 : tasks_sent (trace s2) = [(originalMethod d2, args)])
    by apply (c_sent (start_consistent d2 args)).
  split; [apply (c_sent (run_consistent captureStack d1 args evs)) |].
  split; [now rewrite E1, E2, Hsrc |].
  split.
  - rewrite (on_message_paths env (originalMethod d1) args). cbv zeta.
    destruct (newFunction env (u "return " ++ toFunctionExpression (originalMethod d1)))
      as [fn | e |]; cbn [fst Worker.this_bindings]; auto.
    destruct (awaitApply env fn (JsObject []) args);
      cbn [fst Worker.this_bindings]; auto.
  - now rewrite E1, E2, Hsrc.
Qed.

End WorkerClaims.

Section WorkerWitnesses.

Import Examples.


Lemma instance_not_forwarded_witness :
  let alice := JsObject [(u "secret", JsNumber 1)] in
  let bob := JsObject [(u "secret", JsNumber 2)] in
  let call := [JsNumber 5; JsNumber 10] in
  alice <> bob /\
  tasks_sent (trace (decorated add alice call))
    = tasks_sent (trace (decorated add bob call)) /\
  Worker.outbox parse_only sums tt (tasks_sent (trace (decorated add alice call)))
    = [Worker.success_message (JsNumber 15)] /\
  Worker.outbox parse_only sums tt (tasks_sent (trace (decorated add bob call)))
    = [Worker.success_message (JsNumber 15)].
Proof.
  intros alice bob call.
  destruct (@instance_not_forwarded unit jsstring parse_only sums tt no_stack
              add add alice bob call [] eq_refl)
    as (_ & Hsame & _ & _ & Hout).
  split; [discriminate |]. split; [exact Hsame |].
  split; [reflexivity |]. rewrite <- Hout. reflexivity.
Defined.

End WorkerWitnesses.

(* ================================================================== *)
(** * A whole call *)

Section WholeCall.

Variable Env : Type.
Variable Fn : Type.
Variable newFunction : Env -> jsstring -> Completion Fn.
Variable awaitApply : Env -> Fn -> JsValue -> list JsValue -> Completion JsValue.
Variable captureStack : jsstring -> option jsstring.


End WholeCall.

Section WholeCallExamples.

Import Examples.

(** [add(5, 10)] resolves to [15]. *)
Example add_5_10 :
  promise (trace (System.answered parse_only sums no_stack add tt
                    (JsObject []) [JsNumber 5; JsNumber 10]))
  = Fulfilled (JsNumber 15).
Proof. reflexivity. Qed.

(** With a timeout of 100 ms and a callable that has not settled, the timer
    fires and the call is rejected. *)
Example slow_times_out :
  let s := System.answered parse_only never_settles no_stack slow tt
             (JsObject []) [JsNumber 500] in
  promise (trace s) = Pending /\
  promise (trace (deliver no_stack slow s TimerFired))
  = Rejected {| name := u "Error";
                message := u "Worker execution timed out after 100 ms";
                stack := None;
                props := [(u "context", JsString (u "Calculator/slow"))] |}.
Proof. split; reflexivity. Qed.

End WholeCallExamples.

(* ================================================================== *)
(** * More on the Callable Normalizer *)

Section NormalizerMore.

Lemma drop_while_keeps (p : N -> bool) c s :
  p c = false -> In c s -> In c (drop_while p s).
Proof.
  intros Hc. induction s as [| x s IH]; simpl; [tauto |].
  destruct (p x) eqn:Hx.
  - intros [-> | H]; [congruence | auto].
  - auto.
Qed.

(** Trimming removes white space only. *)
Lemma trim_keeps c s : is_space c = false -> In c s -> In c (trim s).
Proof.
  intros Hc H. unfold trim, trimEnd, trimStart.
  apply (proj1 (in_rev _ _)). apply drop_while_keeps; [exact Hc |].
  apply (proj1 (in_rev _ _)). now apply drop_while_keeps.
Qed.

Lemma built_text_trimmed q R :
  q = [] \/ q = u "async " -> stops is_space (rev (LPAREN :: R)) ->
  trim (q ++ u "function" ++ LPAREN :: R) = q ++ u "function" ++ LPAREN :: R.
Proof.
  intros Hq Hend. apply trim_fixed.
  - destruct Hq as [-> | ->]; reflexivity.
  - rewrite !app_assoc, rev_app_distr.
    apply stops_app_l; auto using rev_cons_nonempty.
Qed.

Lemma built_text_begins q R :
  q = [] \/ q = u "async " -> begins_function (q ++ u "function" ++ LPAREN :: R).
Proof.
  intros Hq. constructor; [| reflexivity].
  destruct Hq as [-> | ->]; [now left | right].
  exists (u " "). repeat split. discriminate.
Qed.

Lemma startsWith_app_same p s r :
  startsWith (p ++ s) (p ++ r) = startsWith s r.
Proof.
  induction p as [| c p IH]; simpl; [reflexivity |].
  now rewrite N.eqb_refl.
Qed.

(** What the normalizer builds when neither pattern matches and the text
    has a parameter list. *)
Lemma rewritten_form code :
  test_anchored RE_FUNCTION (trim code) || test_anchored RE_ARROW (trim code)
    = false ->
  In LPAREN code ->
  exists q R,
    (q = [] \/ q = u "async ") /\
    stops is_space (rev (LPAREN :: R)) /\
    slice (trim code) (indexOf (trim code) LPAREN) = LPAREN :: R /\
    toFunctionExpression code = q ++ u "function" ++ LPAREN :: R.
Proof.
  intros Hre Hin. unfold toFunctionExpression. rewrite Hre.
  assert (Hne : indexOf (trim code) LPAREN <> (-1)%Z).
  { intros E. apply indexOf_absent in E. apply E.
    now apply trim_keeps. }
  destruct (indexOf (trim code) LPAREN =? -1)%Z eqn:Ei;
    [apply Z.eqb_eq in Ei; contradiction |].
  destruct (indexOf_found _ _ Hne) as (a & r & E & _ & Hi).
  assert (Hs : slice (trim code) (Z.of_nat (List.length a)) = LPAREN :: r)
    by (rewrite E; apply slice_at_length).
  rewrite Hi, Hs.
  assert (Hend : stops is_space (rev (LPAREN :: r))).
  { pose proof (trim_stops_end code) as He. rewrite E, rev_app_distr in He.
    apply stops_app_inv in He; auto using rev_cons_nonempty. }
  destruct (startsWith (trim code) (u "async ")).
  - exists (u "async "), r. auto.
  - exists [], r. auto.
Qed.

(** X1. The two patterns of the normalizer accept exactly these texts: the
    first, text that begins with [function] (optionally after [async] and
    white space) followed by white space or (; the second, text that begins
    with (, or with a letter, _ or $, then word characters, optional white
    space and the arrow. *)
Theorem patterns_accept_exactly t :
  (test_anchored RE_FUNCTION t = true <-> begins_function t) /\
  (test_anchored RE_ARROW t = true <-> begins_plain_arrow t).
Proof. split; [apply RE_FUNCTION_spec | apply RE_ARROW_spec]. Qed.

Lemma patterns_accept_exactly_witness :
  test_anchored RE_FUNCTION (u "async  function run(n) { return n }") = true /\
  begins_plain_arrow (u "value => value * 2").
Proof.
  split.
  - apply (proj2 (proj1 (patterns_accept_exactly
                           (u "async  function run(n) { return n }")))).
    apply (@begins_function_intro (u "async  ") 32%N (u "run(n) { return n }")).
    + right. exists (u "  "). repeat split. discriminate.
    + reflexivity.
  - apply (proj1 (proj2 (patterns_accept_exactly (u "value => value * 2")))).
    reflexivity.
Defined.

(** X2. Whatever text with a parameter list the normalizer is given, what
    it returns is, once trimmed, in one of the two shapes its patterns
    accept: the worker never evaluates method-shaped text. *)
Theorem normalized_is_recognised code :
  In LPAREN code ->
  begins_function (trim (toFunctionExpression code)) \/
  begins_plain_arrow (trim (toFunctionExpression code)).
Proof.
  intros Hin.
  destruct (test_anchored RE_FUNCTION (trim code)
            || test_anchored RE_ARROW (trim code)) eqn:Hre.
  - assert (E : toFunctionExpression code = code)
      by (unfold toFunctionExpression; now rewrite Hre).
    rewrite E. apply orb_true_iff in Hre as [H | H].
    + left. now apply RE_FUNCTION_spec.
    + right. now apply RE_ARROW_spec.
  - destruct (rewritten_form code Hre Hin) as (q & R & Hq & Hend & _ & E).
    left. rewrite E, built_text_trimmed by assumption.
    now apply built_text_begins.
Qed.

Lemma normalized_is_recognised_witness :
  begins_function
    (trim (toFunctionExpression (u " async sum(a, b) { return a + b } "))).
Proof.
  destruct (@normalized_is_recognised (u " async sum(a, b) { return a + b } "))
    as [H | H].
  - vm_compute. intuition discriminate.
  - exact H.
  - exfalso. apply RE_ARROW_spec in H. discriminate.
Defined.

(** X3. The normalizer never changes the text from the first ( onward:
    up to the white space around the whole text, the parameter list and the
    body come out as they went in, for every input. *)
Theorem parameters_and_body_kept code :
  let from_paren s := slice s (indexOf s LPAREN) in
  from_paren (trim (toFunctionExpression code)) = from_paren (trim code).
Proof.
  intros from_paren.
  destruct (test_anchored RE_FUNCTION (trim code)
            || test_anchored RE_ARROW (trim code)) eqn:Hre.
  { assert (E : toFunctionExpression code = code)
      by (unfold toFunctionExpression; now rewrite Hre).
    now rewrite E. }
  destruct (in_dec N.eq_dec LPAREN code) as [Hin | Hout].
  2:{ now rewrite (no_paren_fixed code Hout). }
  destruct (rewritten_form code Hre Hin) as (q & R & Hq & Hend & Hs & E).
  rewrite E, built_text_trimmed by assumption.
  unfold from_paren at 2. rewrite Hs. unfold from_paren.
  rewrite app_assoc.
  assert (Hno : ~ In LPAREN (q ++ u "function")).
  { destruct Hq as [-> | ->]; vm_compute; intuition discriminate. }
  rewrite (@indexOf_first (q ++ u "function") LPAREN R Hno).
  apply slice_at_length.
Qed.

(** X4. The asynchronous qualifier survives only when a plain space
    follows the keyword: a method text whose [async] is followed by another
    white-space unit (a tab, a line break) is rewritten to a plain
    [function]. *)
Theorem async_needs_a_space c ws name ws0 params sep body :
  is_space c = true -> c <> 32%N -> all_space ws ->
  method_name name = true -> name <> u "function" -> all_space ws0 ->
  toFunctionExpression
    (method_text (u "async" ++ c :: ws) name ws0 params sep body)
  = u "function(" ++ params ++ u ")" ++ sep ++ u "{" ++ body ++ u "}".
Proof.
  intros Hc Hc32 Hws Hn Hnf Hws0.
  assert (Hq : optional_async (u "async" ++ c :: ws)).
  { right. exists (c :: ws). repeat split; [discriminate |].
    unfold all_space. simpl. now rewrite Hc. }
  destruct (@normalize_method (u "async" ++ c :: ws) name ws0
              (params ++ u ")" ++ sep ++ u "{" ++ body ++ u "}") Hq Hn Hnf Hws0)
    as [_ Hf].
  { apply method_text_stops_end. }
  rewrite method_text_cut. rewrite Hf.
  assert (Hs : startsWith
                 ((u "async" ++ c :: ws) ++ name ++ ws0 ++ LPAREN
                  :: params ++ u ")" ++ sep ++ u "{" ++ body ++ u "}")
                 (u "async ") = false).
  { apply N.eqb_neq in Hc32. rewrite N.eqb_sym in Hc32.
    rewrite <- app_assoc.
    change (u "async ") with (u "async" ++ [32%N]).
    rewrite startsWith_app_same. cbn [app startsWith].
    rewrite Hc32. reflexivity. }
  rewrite Hs. reflexivity.
Qed.

Lemma async_needs_a_space_witness :
  toFunctionExpression (u "async" ++ 9%N :: u "load(id) { return await find(id) }")
  = u "function(id) { return await find(id) }".
Proof.
  refine (@async_needs_a_space 9%N [] (u "load") [] (u "id") (u " ")
            (u " return await find(id) ") _ _ _ _ _ _);
    try reflexivity; discriminate.
Defined.

End NormalizerMore.

(* ================================================================== *)
(** * More on the dispatcher: the race, the trace and late events *)

Section DispatcherMore.

Variable captureStack : jsstring -> option jsstring.
Variable d : Decoration.
Variable args : list JsValue.

Local Abbreviation reach evs := (run captureStack d evs (start d args)).
Local Abbreviation step s ev := (deliver captureStack d s ev).

Lemma settling_count e :
  is_settle e = true -> count is_settle (settling_effects d e) = 1.
Proof.
  intros He. unfold settling_effects, count.
  destruct (truthy_timeout (timeout d)); simpl; now rewrite He.
Qed.

(** A step that adds one settlement sets the latch. *)
Lemma step_sets_latch s ev X :
  consistent d args s -> isResolved s = false ->
  trace (step s ev) = trace s ++ X -> count is_settle X = 1 ->
  isResolved (step s ev) = true.
Proof.
  intros H Hl E HX.
  pose proof (c_settle (deliver_consistent captureStack ev H)) as C.
  rewrite E, count_app, (c_settle H), Hl, HX in C. simpl in C.
  destruct (isResolved (step s ev)); [reflexivity | discriminate].
Qed.

Lemma settled_run evs : forall s,
  isResolved s = true ->
  isResolved (run captureStack d evs s) = true /\
  promise (trace (run captureStack d evs s)) = promise (trace s).
Proof.
  induction evs as [| ev evs IH]; intros s Hl; simpl; [auto |].
  destruct (@settled_step captureStack d s ev Hl) as (H1 & H2 & _).
  destruct (IH _ H1) as (H3 & H4). split; [exact H3 | congruence].
Qed.

(** What a settled call still does: nothing, but for the log line of a
    reference error. *)
Lemma settled_step_trace s ev :
  isResolved s = true ->
  trace (step s ev) = trace s ++
    match ev with
    | ErrorReported err =>
        if errorListener s && JsStr.eqb (name err) (u "ReferenceError")
        then [ConsoleError (u "Worker reference error: ") (message err)]
        else []
    | _ => []
    end.
Proof.
  intros Hl. unfold deliver.
  destruct ev as [| value | err | code]; simpl enabled.
  - destruct (timerArmed s); rewrite app_nil_r; [| reflexivity].
    simpl. unfold on_timeout, rejectOnce. simpl. now rewrite Hl.
  - destruct (messageListener s); rewrite app_nil_r; [| reflexivity].
    simpl. unfold on_message, rejectOnce, resolveOnce. simpl. rewrite Hl.
    now destruct (Wire.error value).
  - destruct (errorListener s); simpl andb; [| now rewrite app_nil_r].
    simpl callback. unfold on_error, rejectOnce.
    destruct (JsStr.eqb (name err) (u "ReferenceError")); simpl; rewrite Hl; simpl.
    + reflexivity.
    + now rewrite app_nil_r.
  - destruct (exitListener s); rewrite app_nil_r; [| reflexivity].
    simpl. unfold on_exit. simpl. now rewrite Hl, andb_false_r.
Qed.

Lemma promise_after_settling t e :
  count is_settle t = 0 -> is_settle e = true ->
  promise (t ++ settling_effects d e) = promise [e].
Proof.
  intros Ht He. rewrite promise_app by exact Ht.
  unfold settling_effects. destruct (truthy_timeout (timeout d)); reflexivity.
Qed.

Ltac settled_by Hsettled Htr :=
  match type of Htr with
  | _ = _ ++ settling_effects _ ?e =>
      rewrite (Hsettled e eq_refl [] eq_refl Htr); reflexivity
  | _ = _ ++ ?x :: settling_effects _ ?e =>
      rewrite (Hsettled e eq_refl [x] eq_refl Htr); reflexivity
  end.

Ltac grows_by Hgrow Htr :=
  match type of Htr with
  | _ = _ ++ settling_effects _ ?e =>
      apply (Hgrow [] e eq_refl); [simpl; lia | reflexivity | exact Htr]
  | _ = _ ++ ?x :: settling_effects _ ?e =>
      apply (Hgrow [x] e eq_refl); [simpl; lia | reflexivity | exact Htr]
  end.

Lemma race_from evs : forall s,
  consistent d args s -> isResolved s = false ->
  promise (trace (run captureStack d evs s))
  = Race.first_settlement captureStack d (exitListener s) evs.
Proof.
  induction evs as [| ev evs IH]; intros s H Hl.
  - simpl. apply promise_pending_iff. rewrite (c_settle H), Hl. reflexivity.
  - assert (H0 : count is_settle (trace s) = 0)
      by (rewrite (c_settle H), Hl; reflexivity).
    assert (Hsettled : forall e,
              is_settle e = true ->
              forall pre, count is_settle pre = 0 ->
              trace (step s ev) = trace s ++ pre ++ settling_effects d e ->
              promise (trace (run captureStack d (ev :: evs) s)) = promise [e]).
    { intros e He pre Hpre E. simpl run.
      assert (Hl' : isResolved (step s ev) = true).
      { apply (@step_sets_latch s ev (pre ++ settling_effects d e)); auto.
        rewrite count_app, Hpre, settling_count; auto. }
      destruct (settled_run evs _ Hl') as (_ & Hp). rewrite Hp, E.
      rewrite app_assoc. apply promise_after_settling; [| exact He].
      rewrite count_app, H0, Hpre. reflexivity. }
    destruct (enabled ev s) eqn:En.
    + pose proof (@pending_step captureStack d args s ev H Hl En) as Htr.
      destruct ev as [| value | err | code]; simpl in En; cbn [Race.first_settlement].
      * rewrite (c_armed H), Hl in En. simpl in En. rewrite En.
        settled_by Hsettled Htr.
      * unfold Race.received. destruct (Wire.error value).
        -- settled_by Hsettled Htr.
        -- settled_by Hsettled Htr.
      * unfold Race.reported_error.
        destruct (JsStr.eqb (name err) (u "ReferenceError")).
        -- settled_by Hsettled Htr.
        -- settled_by Hsettled Htr.
      * rewrite En. destruct (code =? 0)%Z eqn:Ec.
        -- simpl run.
           assert (Es : step s (Exited code) = consume (Exited code) s).
           { unfold deliver. simpl enabled. rewrite En. simpl callback.
             unfold on_exit. simpl isResolved. now rewrite Ec. }
           pose proof (deliver_consistent captureStack (Exited code) H) as H'.
           rewrite Es in *. now rewrite (IH _ H' Hl).
        -- settled_by Hsettled Htr.
    + assert (Es : step s ev = s) by (unfold deliver; now rewrite En).
      simpl run. rewrite Es, (IH s H Hl).
      destruct ev as [| value | err | code]; simpl in En; cbn [Race.first_settlement].
      * rewrite (c_armed H), Hl in En. simpl in En. now rewrite En.
      * rewrite (c_message_listener H Hl) in En. discriminate.
      * rewrite (c_error_listener H Hl) in En. discriminate.
      * now rewrite En.
Qed.

(** X5. The promise of a call is decided by the first event, in arrival
    order, that can settle it, and by that event alone: the events after it
    change nothing, a timer event counts only when a timer was set, and an
    exit with code 0 spends the exit listener without settling. *)
Theorem first_event_wins evs :
  promise (trace (reach evs)) = Race.first_settlement captureStack d true evs.
Proof.
  assert (Hl : isResolved (start d args) = false).
  { unfold start. destruct (timeout d); [destruct (truthy_timeout _) |]; reflexivity. }
  rewrite (race_from evs (start_consistent d args) Hl). reflexivity.
Qed.

Lemma run_exits_dropped evs : forall s,
  exitListener s = false -> forallb Race.is_exit evs = true ->
  run captureStack d evs s = s.
Proof.
  induction evs as [| ev evs IH]; intros s Hx Hall; [reflexivity |].
  simpl in Hall. apply andb_true_iff in Hall as [Hev Hall].
  destruct ev; try discriminate.
  change (run captureStack d (Exited code :: evs) s)
    with (run captureStack d evs (step s (Exited code))).
  assert (Es : step s (Exited code) = s)
    by (unfold deliver; simpl enabled; now rewrite Hx).
  rewrite Es. now apply IH.
Qed.

(** X6. A worker that exits with code 0 before it answered leaves the call
    as it started: not settled, the worker not terminated by the caller,
    the timer (if any) still armed; and since the exit listener is spent, no
    further exit event, whatever its code, changes that. *)
Theorem clean_exit_leaves_pending evs :
  forallb Race.is_exit evs = true ->
  let s := reach (Exited 0%Z :: evs) in
  promise (trace s) = Pending /\
  trace s = trace (start d args) /\
  timerArmed s = truthy_timeout (timeout d) /\
  exitListener s = false.
Proof.
  intros Hall s.
  assert (E : s = consume (Exited 0%Z) (start d args)).
  { unfold s. simpl run.
    assert (E1 : step (start d args) (Exited 0%Z)
                 = consume (Exited 0%Z) (start d args)).
    { unfold deliver, start.
      destruct (timeout d); [destruct (truthy_timeout _) |]; reflexivity. }
    rewrite E1. apply run_exits_dropped; [reflexivity | exact Hall]. }
  pose proof (start_consistent d args) as H.
  assert (Hl : isResolved (start d args) = false).
  { unfold start. destruct (timeout d); [destruct (truthy_timeout _) |]; reflexivity. }
  rewrite E. split; [| split; [| split]].
  - change (trace (consume (Exited 0%Z) (start d args)))
      with (trace (start d args)).
    apply promise_pending_iff. rewrite (c_settle H), Hl. reflexivity.
  - reflexivity.
  - change (timerArmed (consume (Exited 0%Z) (start d args)))
      with (timerArmed (start d args)).
    rewrite (c_armed H), Hl. reflexivity.
  - reflexivity.
Qed.

Lemma logs_do_not_settle l :
  forallb Race.is_log l = true -> count is_settle l = 0.
Proof.
  induction l as [| x l IH]; [reflexivity |]. simpl.
  intros H. apply andb_true_iff in H as [Hx H].
  destruct x; try discriminate. exact (IH H).
Qed.

Lemma run_snoc evs ev s :
  run captureStack d (evs ++ [ev]) s = step (run captureStack d evs s) ev.
Proof. unfold run. now rewrite fold_left_app. Qed.

(** X7. The effects of a call always have one shape. While it has not
    settled they are the effects of its start and nothing else: no log, no
    cleanup. Once it has settled they are the effects of its start, then at
    most one log line, then the clearing of the timer where one was set,
    the termination and the settlement, then log lines only. *)
Theorem trace_shape evs :
  let s := reach evs in
  (isResolved s = false -> trace s = trace (start d args)) /\
  (isResolved s = true ->
     exists log e logs,
       is_settle e = true /\ List.length log <= 1 /\
       forallb Race.is_log (log ++ logs) = true /\
       trace s = trace (start d args) ++ log ++ settling_effects d e ++ logs).
Proof.
  induction evs as [| ev evs IH] using rev_ind.
  - simpl. split; [reflexivity |].
    unfold start. destruct (timeout d); [destruct (truthy_timeout _) |]; discriminate.
  - rewrite run_snoc. cbv zeta in *.
    pose proof (run_consistent captureStack d args evs) as H.
    set (s := reach evs) in *. destruct IH as [IHp IHs].
    destruct (isResolved s) eqn:Hl.
    + destruct (@settled_step captureStack d s ev Hl) as (Hl' & _).
      split; [intros C; congruence |]. intros _.
      destruct (IHs eq_refl) as (log & e & logs & He & Hlen & Hlogs & E).
      rewrite (@settled_step_trace s ev Hl), E.
      set (more := match ev with
                   | ErrorReported err =>
                       if errorListener s && JsStr.eqb (name err) (u "ReferenceError")
                       then [ConsoleError (u "Worker reference error: ") (message err)]
                       else []
                   | _ => []
                   end).
      assert (Hmore : forallb Race.is_log more = true).
      { unfold more. destruct ev; try reflexivity.
        destruct (errorListener s && JsStr.eqb (name err) (u "ReferenceError"));
          reflexivity. }
      exists log, e, (logs ++ more). repeat split; auto.
      * rewrite app_assoc, forallb_app, Hlogs, Hmore. reflexivity.
      * now rewrite <- !app_assoc.
    + specialize (IHp eq_refl).
      destruct (enabled ev s) eqn:En.
      2:{ assert (Es : step s ev = s) by (unfold deliver; now rewrite En).
          rewrite Es. split; [auto | congruence]. }
      pose proof (@pending_step captureStack d args s ev H Hl En) as Htr.
      assert (Hgrow : forall log e,
                is_settle e = true -> List.length log <= 1 ->
                forallb Race.is_log log = true ->
                trace (step s ev) = trace s ++ log ++ settling_effects d e ->
                (isResolved (step s ev) = false ->
                 trace (step s ev) = trace (start d args)) /\
                (isResolved (step s ev) = true ->
                 exists log e logs,
                   is_settle e = true /\ List.length log <= 1 /\
                   forallb Race.is_log (log ++ logs) = true /\
                   trace (step s ev)
                   = trace (start d args) ++ log ++ settling_effects d e ++ logs)).
      { intros log e He Hlen Hlog E.
        assert (Hl' : isResolved (step s ev) = true).
        { apply (@step_sets_latch s ev (log ++ settling_effects d e)); auto.
          rewrite count_app, settling_count by exact He.
          now rewrite (logs_do_not_settle log Hlog). }
        split; [congruence |]. intros _.
        exists log, e, []. repeat split; auto.
        - now rewrite app_nil_r.
        - now rewrite E, IHp, app_nil_r. }
      destruct ev as [| value | err | code].
      * grows_by Hgrow Htr.
      * destruct (Wire.error value); grows_by Hgrow Htr.
      * destruct (JsStr.eqb (name err) (u "ReferenceError")); grows_by Hgrow Htr.
      * destruct (code =? 0)%Z eqn:Ec.
        -- rewrite app_nil_r in Htr.
           assert (Hl' : isResolved (step s (Exited code)) = false).
           { unfold deliver. rewrite En. simpl. unfold on_exit. simpl.
             now rewrite Ec. }
           split; [intros _; now rewrite Htr | congruence].
        -- grows_by Hgrow Htr.
Qed.

(** X8. A reference error that the worker reports after the call has
    settled is still logged, and that is all: the promise stays as it was
    and nothing is cleaned up a second time. *)
Theorem late_reference_error_logged evs err :
  let s := reach evs in
  isResolved s = true -> errorListener s = true ->
  name err = u "ReferenceError" ->
  trace (step s (ErrorReported err))
    = trace s ++ [ConsoleError (u "Worker reference error: ") (message err)] /\
  promise (trace (step s (ErrorReported err))) = promise (trace s).
Proof.
  intros s Hl He Hn.
  rewrite (@settled_step_trace s (ErrorReported err) Hl), He.
  apply eqb_eq in Hn. rewrite Hn. simpl andb. cbv iota.
  split; [reflexivity |]. apply promise_app_log.
Qed.

End DispatcherMore.

Section DispatcherMoreWitnesses.

Import Examples.

Lemma clean_exit_leaves_pending_witness :
  let s := run no_stack slow [Exited 0; Exited 1; Exited 7] (start slow [JsNumber 500]) in
  promise (trace s) = Pending /\ timerArmed s = true.
Proof.
  intros s.
  destruct (@clean_exit_leaves_pending no_stack slow [JsNumber 500]
              [Exited 1; Exited 7] eq_refl) as (Hp & _ & Ha & _).
  split; [exact Hp | exact Ha].
Defined.

Lemma trace_shape_witness :
  trace (run no_stack add [Exited 0] (start add [JsNumber 5; JsNumber 10]))
    = trace (start add [JsNumber 5; JsNumber 10]) /\
  exists log e logs,
    is_settle e = true /\ List.length log <= 1 /\
    forallb Race.is_log (log ++ logs) = true /\
    trace (run no_stack slow [TimerFired; Exited 1] (start slow [JsNumber 500]))
    = trace (start slow [JsNumber 500]) ++ log ++ settling_effects slow e ++ logs.
Proof.
  split.
  - exact (proj1 (@trace_shape no_stack add [JsNumber 5; JsNumber 10] [Exited 0])
             eq_refl).
  - exact (proj2 (@trace_shape no_stack slow [JsNumber 500] [TimerFired; Exited 1])
             eq_refl).
Defined.

Lemma late_reference_error_logged_witness :
  let s := run no_stack add [MessageReceived (success_of (JsNumber 15))]
             (start add [JsNumber 5; JsNumber 10]) in
  let err := {| name := u "ReferenceError"; message := u "helper is not defined";
                stack := None; props := [] |} in
  trace (deliver no_stack add s (ErrorReported err))
    = trace s ++ [ConsoleError (u "Worker reference error: ")
                    (u "helper is not defined")] /\
  promise (trace (deliver no_stack add s (ErrorReported err)))
    = Fulfilled (JsNumber 15).
Proof.
  intros s err.
  exact (@late_reference_error_logged no_stack add [JsNumber 5; JsNumber 10]
           [MessageReceived (success_of (JsNumber 15))] err
           eq_refl eq_refl eq_refl).
Defined.

End DispatcherMoreWitnesses.

(* ================================================================== *)
(** * The worker file *)

Section LoaderFacts.





End LoaderFacts.

(* ================================================================== *)
(** * The earlier decorator *)

Section LegacyFacts.

Variable captureStack : jsstring -> option jsstring.
Variable dirname : jsstring.
Variable d : Legacy.Decoration.
Variable args : list JsValue.

Local Abbreviation lstart := (Legacy.start dirname d args).
Local Abbreviation lrun evs s := (Legacy.run captureStack d evs s).
Local Abbreviation lstep s ev := (Legacy.deliver captureStack d s ev).

Lemma legacy_count_app p a b :
  Legacy.count p (a ++ b) = Legacy.count p a + Legacy.count p b.
Proof. unfold Legacy.count. now rewrite filter_app, length_app. Qed.

(** What one event adds, for the three kinds of effect counted below. *)
Lemma legacy_step s ev :
  Legacy.timeoutId (lstep s ev) = Legacy.timeoutId s /\
  (Legacy.timerArmed s = false -> Legacy.timerArmed (lstep s ev) = false) /\
  (Legacy.is_timer ev = false -> Legacy.timeoutId s <> None ->
   Legacy.timerArmed (lstep s ev) = false) /\
  Legacy.count Legacy.is_terminate (Legacy.trace (lstep s ev))
    = Legacy.count Legacy.is_terminate (Legacy.trace s)
      + Nat.b2n (Legacy.is_timer ev && Legacy.timerArmed s) /\
  Legacy.count Legacy.is_clear (Legacy.trace (lstep s ev))
    = Legacy.count Legacy.is_clear (Legacy.trace s)
      + Nat.b2n (negb (Legacy.is_timer ev)
                 && match Legacy.timeoutId s with Some _ => true | None => false end) /\
  Legacy.count Legacy.is_promise (Legacy.trace (lstep s ev))
    = Legacy.count Legacy.is_promise (Legacy.trace s)
      + Nat.b2n (Legacy.carries ev).
Proof.
  destruct s as [tid armed tr].
  destruct ev as [| value | err | code]; simpl.
  - destruct armed; simpl; rewrite ?legacy_count_app; simpl;
      repeat split; auto; try discriminate; lia.
  - unfold Legacy.on_message, Legacy.clear_if_set. simpl.
    destruct tid; destruct (Wire.error value);
      try destruct (Legacy.truthy (Wire.success value)); simpl;
      rewrite ?legacy_count_app; simpl; rewrite ?legacy_count_app; simpl;
      repeat split; auto; try congruence; lia.
  - unfold Legacy.on_error, Legacy.clear_if_set. simpl.
    destruct tid; destruct (JsStr.eqb (name err) (u "ReferenceError")); simpl;
      rewrite ?legacy_count_app; simpl; rewrite ?legacy_count_app; simpl;
      repeat split; auto; try congruence; lia.
  - unfold Legacy.on_exit, Legacy.clear_if_set. simpl.
    destruct tid; destruct (code =? 0)%Z; simpl;
      rewrite ?legacy_count_app; simpl; rewrite ?legacy_count_app; simpl;
      repeat split; auto; try congruence; lia.
Qed.

Lemma legacy_unarmed evs : forall s,
  Legacy.timerArmed s = false ->
  Legacy.count Legacy.is_terminate (Legacy.trace (lrun evs s))
  = Legacy.count Legacy.is_terminate (Legacy.trace s).
Proof.
  induction evs as [| ev evs IH]; intros s Ha; [reflexivity |].
  change (lrun (ev :: evs) s) with (lrun evs (lstep s ev)).
  destruct (legacy_step s ev) as (_ & Hk & _ & Ht & _).
  rewrite (IH _ (Hk Ha)), Ht, Ha, andb_false_r. simpl. lia.
Qed.

Lemma legacy_start_state :
  Legacy.timerArmed lstart = truthy_timeout (Legacy.timeout d) /\
  (match Legacy.timeoutId lstart with Some _ => true | None => false end)
    = truthy_timeout (Legacy.timeout d) /\
  Legacy.count Legacy.is_terminate (Legacy.trace lstart) = 0 /\
  Legacy.count Legacy.is_clear (Legacy.trace lstart) = 0 /\
  Legacy.count Legacy.is_promise (Legacy.trace lstart) = 0.
Proof.
  unfold Legacy.start.
  destruct (Legacy.timeout d) as [n |] eqn:T;
    [destruct (truthy_timeout (Some n)) eqn:Tr |]; simpl; rewrite ?Tr; auto.
Qed.

(** X10. The earlier decorator terminates the worker in one case only:
    when a timeout is configured and the timer fires before any message,
    error or exit event. Any such event clears the timer, and from then on
    the worker is never terminated by the caller, whatever follows. *)
Theorem legacy_terminates_only_on_timeout evs :
  Legacy.count Legacy.is_terminate (Legacy.trace (lrun evs lstart))
  = match evs with
    | TimerFired :: _ => Nat.b2n (truthy_timeout (Legacy.timeout d))
    | _ => 0
    end.
Proof.
  destruct legacy_start_state as (Ha & Hid & Ht & _).
  destruct evs as [| ev evs]; [exact Ht |].
  change (lrun (ev :: evs) lstart) with (lrun evs (lstep lstart ev)).
  destruct (legacy_step lstart ev) as (_ & Hk & Hc & Hterm & _).
  assert (Hoff : Legacy.timerArmed (lstep lstart ev) = false).
  { destruct (Legacy.is_timer ev) eqn:Et.
    - destruct ev; try discriminate. simpl.
      destruct (Legacy.timerArmed lstart) eqn:A; [reflexivity | exact A].
    - destruct (truthy_timeout (Legacy.timeout d)) eqn:T.
      + apply Hc; [reflexivity |].
        destruct (Legacy.timeoutId lstart); [discriminate | discriminate].
      + apply Hk. exact Ha. }
  rewrite (legacy_unarmed evs _ Hoff), Hterm, Ht, Ha.
  destruct ev; simpl; try reflexivity.
Qed.

Lemma legacy_counts evs : forall s,
  Legacy.count Legacy.is_clear (Legacy.trace (lrun evs s))
    = Legacy.count Legacy.is_clear (Legacy.trace s)
      + (if match Legacy.timeoutId s with Some _ => true | None => false end
         then List.length (filter (fun ev => negb (Legacy.is_timer ev)) evs)
         else 0) /\
  Legacy.count Legacy.is_promise (Legacy.trace (lrun evs s))
    = Legacy.count Legacy.is_promise (Legacy.trace s)
      + List.length (filter Legacy.carries evs).
Proof.
  induction evs as [| ev evs IH]; intros s.
  - simpl. destruct (Legacy.timeoutId s); split; lia.
  - change (lrun (ev :: evs) s) with (lrun evs (lstep s ev)).
    destruct (legacy_step s ev) as (Hid & _ & _ & _ & Hc & Hp).
    destruct (IH (lstep s ev)) as (IHc & IHp).
    rewrite IHc, IHp, Hid, Hc, Hp. simpl filter.
    destruct (Legacy.timeoutId s), (Legacy.is_timer ev), (Legacy.carries ev);
      simpl; split; lia.
Qed.

(** X11. The earlier decorator never resets [timeoutId]: with a timeout
    configured, every message, error and exit event calls [clearTimeout]
    again, so the number of calls is the number of such events; without a
    timeout it is never called. *)
Theorem legacy_clears_on_every_event evs :
  Legacy.count Legacy.is_clear (Legacy.trace (lrun evs lstart))
  = if truthy_timeout (Legacy.timeout d)
    then List.length (filter (fun ev => negb (Legacy.is_timer ev)) evs)
    else 0.
Proof.
  destruct legacy_start_state as (_ & Hid & _ & Hc & _).
  rewrite (proj1 (legacy_counts evs lstart)), Hc, Hid. reflexivity.
Qed.

(** X12. The earlier decorator hands its caller [undefined], and its
    message listener creates a promise only for a message that carries an
    error or a truthy [success]: over any sequence of events the promises
    created are as many as those messages, so a result of [0], [false],
    an empty string, [null] or [undefined] produces nothing at all. *)
Theorem legacy_drops_falsy_results this evs :
  snd (Legacy.decorated dirname d this args) = JsUndefined /\
  Legacy.count Legacy.is_promise
    (Legacy.trace (lrun evs (fst (Legacy.decorated dirname d this args))))
  = List.length (filter Legacy.carries evs).
Proof.
  split; [reflexivity |]. unfold Legacy.decorated. cbn [fst].
  destruct legacy_start_state as (_ & _ & _ & _ & Hp).
  rewrite (proj2 (legacy_counts evs lstart)), Hp. reflexivity.
Qed.

End LegacyFacts.
